(** * npm-scripts-tree: the script-relationship resolver

    A shallow embedding of the resolver (the file with [swapColonAndSlash],
    [getSubNames], [attachLabelAndNodes] and [prune]) and of its earlier
    variant [index.js] ([getNodesNames], [attachNodes]).

    Conventions of the embedding.
    - A JavaScript string is a [string]: a sequence of code units below 256.
    - A plain object used as a dictionary is an association list of its
      own properties, in [Object.keys] order.  Where the program reads
      [o[k]] under a name that may be any text, the properties that every
      object inherits are read too ([JS.read]); where the name is a key, or
      starts with [pre] or [post] (no inherited name does), the own
      properties are all there is to read ([Obj.get]).
    - [undefined] is [None]; a string is truthy when it is not empty.
    - An entry object is identified by its key: a reference to an entry is
      the key under which the entry is stored. *)

From Stdlib Require Import String Ascii List Bool Arith Lia.
From Stdlib Require Import DecimalString.
From Stdlib Require Import Permutation Sorted.
Import ListNotations.
Open Scope string_scope.
Open Scope list_scope.

(** ** Objects used as dictionaries *)

Module Obj.

Definition t (V : Type) : Type := list (string * V).

(** [o[k]] *)
Fixpoint get {V} (o : t V) (k : string) : option V :=
  match o with
  | [] => None
  | (k', v) :: o' => if String.eqb k k' then Some v else get o' k
  end.

(** [Object.keys(o)] *)
Definition keys {V} (o : t V) : list string := map fst o.

(** [o[k] = v]: an existing key keeps its place, a new key goes last. *)
Fixpoint set {V} (o : t V) (k : string) (v : V) : t V :=
  match o with
  | [] => [(k, v)]
  | (k', v') :: o' =>
      if String.eqb k k' then (k', v) :: o' else (k', v') :: set o' k v
  end.

(** Objects have no repeated key. *)
Definition wf {V} (o : t V) : Prop := NoDup (keys o).

End Obj.

(** ** The JavaScript runtime pieces the program uses *)

Module JS.

Definition code (c : ascii) : nat := nat_of_ascii c.

Definition in_range (lo hi c : ascii) : bool :=
  Nat.leb (code lo) (code c) && Nat.leb (code c) (code hi).

Definition to_upper (c : ascii) : ascii :=
  if in_range "a" "z" c then ascii_of_nat (code c - 32) else c.

Definition to_lower (c : ascii) : ascii :=
  if in_range "A" "Z" c then ascii_of_nat (code c + 32) else c.

(** White space and line terminators below 256: TAB, LF, VT, FF, CR, SP,
    NBSP.  This is both the class [\s] and what [trim] removes. *)
Definition is_space (c : ascii) : bool :=
  let n := code c in
  (Nat.leb 9 n && Nat.leb n 13) || Nat.eqb n 32 || Nat.eqb n 160.

(** The class [\w]. *)
Definition is_word (c : ascii) : bool :=
  in_range "a" "z" c || in_range "A" "Z" c || in_range "0" "9" c
  || Ascii.eqb c "_".

(** Truthiness of a possibly undefined string. *)
Definition truthy (v : option string) : bool :=
  match v with
  | Some s => negb (String.eqb s "")
  | None => false
  end.

(** [String(v)] for a possibly undefined string. *)
Definition to_string (v : option string) : string :=
  match v with
  | Some s => s
  | None => "undefined"
  end.

(** [s.slice(n)] for [0 <= n]. *)
Fixpoint slice (n : nat) (s : string) : string :=
  match n, s with
  | 0, _ => s
  | S n', String _ s' => slice n' s'
  | S _, EmptyString => EmptyString
  end.

(** The first [n] code units of [s]. *)
Fixpoint take (n : nat) (s : string) : string :=
  match n, s with
  | S n', String c s' => String c (take n' s')
  | _, _ => EmptyString
  end.

Fixpoint trim_start (s : string) : string :=
  match s with
  | String c s' => if is_space c then trim_start s' else s
  | EmptyString => EmptyString
  end.

(** Removes trailing white space: a white-space character is kept only
    when something non-blank follows it. *)
Fixpoint trim_end (s : string) : string :=
  match s with
  | String c s' =>
      match trim_end s' with
      | EmptyString => if is_space c then EmptyString else String c EmptyString
      | t => String c t
      end
  | EmptyString => EmptyString
  end.

(** [s.trim()] *)
Definition trim (s : string) : string := trim_end (trim_start s).

(** [s.split(sep)] for a one-character separator; [cur] is the piece being
    read. *)
Fixpoint split_aux (sep : ascii) (cur : string) (s : string) : list string :=
  match s with
  | EmptyString => [cur]
  | String c s' =>
      if Ascii.eqb c sep then cur :: split_aux sep EmptyString s'
      else split_aux sep (cur ++ String c EmptyString) s'
  end.

Definition split (sep : ascii) (s : string) : list string :=
  split_aux sep EmptyString s.

(** [a.includes(x)] on an array of strings. *)
Definition includes (a : list string) (x : string) : bool :=
  existsb (String.eqb x) a.

(** The names of the properties that every plain object inherits from
    [Object.prototype]; their values are functions, and for [__proto__]
    the prototype object: all of them truthy. *)
Definition OBJECT_PROTOTYPE : list string :=
  ["constructor"; "__defineGetter__"; "__defineSetter__"; "hasOwnProperty";
   "__lookupGetter__"; "__lookupSetter__"; "isPrototypeOf";
   "propertyIsEnumerable"; "toString"; "valueOf"; "__proto__";
   "toLocaleString"].

(** What the expression [o[k]] reads on a plain object: the value of the
    own property [k], or else an inherited value, or else [undefined]. *)
Inductive property (V : Type) : Type :=
| own (v : V)
| inherited
| absent.
Arguments own {V} v.
Arguments inherited {V}.
Arguments absent {V}.

Definition read {V} (o : Obj.t V) (k : string) : property V :=
  match Obj.get o k with
  | Some v => own v
  | None => if includes OBJECT_PROTOTYPE k then inherited else absent
  end.

(** Truthiness of what [o[k]] reads in a map of strings. *)
Definition truthy_property (p : property string) : bool :=
  match p with
  | own s => negb (String.eqb s "")
  | inherited => true
  | absent => false
  end.

(** [s.includes(c)] for a one-character needle. *)
Fixpoint has_char (c : ascii) (s : string) : bool :=
  match s with
  | EmptyString => false
  | String d s' => Ascii.eqb c d || has_char c s'
  end.

(** *** Regular expressions

    The fragment of the pattern language the program's expressions use,
    with the backtracking semantics of the language standard: greedy
    quantifiers, captures reset on every iteration of a quantified group, an
    iteration of [*] that consumes nothing is rejected. *)

Inductive class_item : Type :=
| One (c : ascii)
| Range (lo hi : ascii).

Inductive regex : Type :=
| Empty                           (* the empty pattern *)
| Bol                             (* ^ *)
| Chr (c : ascii)                 (* a literal character *)
| Cls (items : list class_item)   (* [...] *)
| Space                           (* \s *)
| Word                            (* \w *)
| Seq (r1 r2 : regex)
| Star (r : regex)                (* (?:r)* *)
| Plus (r : regex)                (* (?:r)+ *)
| Group (i : nat) (r : regex).    (* the i-th capturing group *)

(** A literal word. *)
Fixpoint lit (s : string) : regex :=
  match s with
  | EmptyString => Empty
  | String c s' => Seq (Chr c) (lit s')
  end.

(** The capturing groups inside an expression. *)
Fixpoint groups (r : regex) : list nat :=
  match r with
  | Seq r1 r2 => groups r1 ++ groups r2
  | Star r1 | Plus r1 => groups r1
  | Group i r1 => i :: groups r1
  | _ => []
  end.

(** Captures: group number to captured text; an absent group is undefined. *)
Definition caps : Type := list (nat * string).

Fixpoint cap (c : caps) (i : nat) : option string :=
  match c with
  | [] => None
  | (j, v) :: c' => if Nat.eqb i j then Some v else cap c' i
  end.

Definition clear (gs : list nat) (c : caps) : caps :=
  filter (fun p => negb (existsb (Nat.eqb (fst p)) gs)) c.

Definition set_cap (i : nat) (v : string) (c : caps) : caps :=
  (i, v) :: clear [i] c.

Section Matcher.

(** The [i] flag, and the length of the whole input (for [^]). *)
Variable icase : bool.
Variable input_len : nat.

Definition canon (c : ascii) : ascii := if icase then to_upper c else c.

Definition chr_match (a b : ascii) : bool := Ascii.eqb (canon a) (canon b).

Definition item_match (it : class_item) (b : ascii) : bool :=
  match it with
  | One a => chr_match a b
  | Range lo hi =>
      if icase
      then in_range lo hi b || in_range lo hi (to_upper b)
           || in_range lo hi (to_lower b)
      else in_range lo hi b
  end.

Context {R : Type}.

Definition cont : Type := string -> caps -> option R.

(** One character against a test. *)
Definition step (test : ascii -> bool) (s : string) (c : caps) (k : cont)
  : option R :=
  match s with
  | String b s' => if test b then k s' c else None
  | EmptyString => None
  end.

(** Greedy iteration of the matcher [m]; [n] bounds the number of
    iterations by the length of the remaining input, which is exact since
    every accepted iteration consumes at least one character. *)
Fixpoint star_loop (m : string -> caps -> cont -> option R) (gs : list nat)
    (n : nat) (s : string) (c : caps) (k : cont) : option R :=
  match n with
  | 0 => k s c
  | S n' =>
      match m s (clear gs c)
              (fun s' c' =>
                 if Nat.ltb (String.length s') (String.length s)
                 then star_loop m gs n' s' c' k
                 else None)
      with
      | Some x => Some x
      | None => k s c
      end
  end.

Fixpoint rmatch (r : regex) (s : string) (c : caps) (k : cont) {struct r}
  : option R :=
  match r with
  | Empty => k s c
  | Bol => if Nat.eqb (String.length s) input_len then k s c else None
  | Chr a => step (chr_match a) s c k
  | Cls items => step (fun b => existsb (fun it => item_match it b) items) s c k
  | Space => step is_space s c k
  | Word => step is_word s c k
  | Seq r1 r2 => rmatch r1 s c (fun s' c' => rmatch r2 s' c' k)
  | Star r1 => star_loop (rmatch r1) (groups r1) (String.length s) s c k
  | Plus r1 =>
      rmatch r1 s (clear (groups r1) c)
        (fun s' c' => star_loop (rmatch r1) (groups r1) (String.length s') s' c' k)
  | Group i r1 =>
      rmatch r1 s c
        (fun s' c' => k s' (set_cap i (take (String.length s - String.length s') s) c'))
  end.

End Matcher.

(** Two properties of a matcher, used to justify the bounds of the loops.
    [m] calls its continuation on inputs no longer than its own, with
    captures that satisfy [I], and returns what the continuation returns. *)
Definition calls {R} (I : caps -> Prop)
    (m : string -> caps -> @cont R -> option R) : Prop :=
  forall s c k x,
    m s c k = Some x ->
    exists s' c',
      String.length s' <= String.length s /\ I c' /\ k s' c' = Some x.

(** [m] does not depend on what its continuation does on longer inputs. *)
Definition local {R} (m : string -> caps -> @cont R -> option R) : Prop :=
  forall s c k1 k2,
    (forall s' c', String.length s' <= String.length s -> k1 s' c' = k2 s' c') ->
    m s c k1 = m s c k2.

(** [[...s].every(test)] *)
Fixpoint every (test : ascii -> bool) (s : string) : bool :=
  match s with
  | EmptyString => true
  | String b s' => test b && every test s'
  end.

(** The number of occurrences of a character. *)
Fixpoint count_char (c : ascii) (s : string) : nat :=
  match s with
  | EmptyString => 0
  | String d s' => (if Ascii.eqb d c then 1 else 0) + count_char c s'
  end.

(** [s] starts with the word [w], letter case apart. *)
Fixpoint starts_with_ci (w s : string) : bool :=
  match w, s with
  | EmptyString, _ => true
  | String a w', String b s' => chr_match true a b && starts_with_ci w' s'
  | String _ _, EmptyString => false
  end.

(** The word [w] occurs somewhere in [s], letter case apart. *)
Fixpoint mentions (w s : string) : bool :=
  starts_with_ci w s
  || match s with
     | String _ s' => mentions w s'
     | EmptyString => false
     end.

(** [m] hands to its continuation what is left after a prefix of its
    input, all of whose characters pass [test]. *)
Definition consumes {R} (test : ascii -> bool)
    (m : string -> caps -> @cont R -> option R) : Prop :=
  forall s c k x,
    m s c k = Some x ->
    exists p s' c',
      s = (p ++ s')%string /\ every test p = true /\ k s' c' = Some x.

(** A compiled expression: the pattern and its [i] flag.  (The [g] flag
    decides how [exec] uses [lastIndex], see [exec] and [test_match].) *)
Record RegExp : Type := { source : regex; ignoreCase : bool }.

(** The match that starts exactly at index [i], if any: the captures and
    the index just after the match. *)
Definition match_at (re : RegExp) (str : string) (i : nat)
  : option (caps * nat) :=
  rmatch (ignoreCase re) (String.length str) (source re) (slice i str) []
    (fun s' c => Some (c, String.length str - String.length s')).

(** The leftmost match starting at [i] or later; [n] counts the start
    positions still to try. *)
Fixpoint search (re : RegExp) (str : string) (n i : nat)
  : option (caps * nat) :=
  match n with
  | 0 => None
  | S n' =>
      match match_at re str i with
      | Some r => Some r
      | None => search re str n' (S i)
      end
  end.

(** [re.exec(str)] for a global expression whose [lastIndex] is
    [lastIndex]: the captures and the new [lastIndex], or [None] for
    [null]. *)
Definition exec (re : RegExp) (str : string) (lastIndex : nat)
  : option (caps * nat) :=
  if Nat.ltb (String.length str) lastIndex then None
  else search re str (S (String.length str - lastIndex)) lastIndex.

(** [str.match(re) !== null] for an expression without the [g] flag. *)
Definition test_match (re : RegExp) (str : string) : bool :=
  match exec re str 0 with Some _ => true | None => false end.

End JS.

(** ** The resolver *)

Module Resolver.
Import JS.

Definition BUILTINS : list string :=
  ["publish"; "install"; "uninstall"; "test"; "stop"; "start"; "restart";
   "version"].

(** [(?:\s+\-+\w+)*] *)
Definition RE_FLAGS : regex :=
  Star (Seq (Plus Space) (Seq (Plus (Chr "-")) (Plus Word))).

(** [\s+([a-z0-9_:\-]+)] *)
Definition RE_NAME : regex :=
  Seq (Plus Space)
      (Group 1 (Plus (Cls [Range "a" "z"; Range "0" "9"; One "_"; One ":";
                           One "-"]))).

(** [((?:\s+[a-z0-9_:\-\*]+)+)] *)
Definition RE_NAMES : regex :=
  Group 1
    (Plus (Seq (Plus Space)
               (Plus (Cls [Range "a" "z"; Range "0" "9"; One "_"; One ":";
                           One "-"; One "*"])))).

(** [SWAP_MAP] *)
Definition SWAP_MAP (c : ascii) : ascii :=
  if Ascii.eqb c ":" then "/"%char
  else if Ascii.eqb c "/" then ":"%char
  else c.

Definition SEP : ascii := ":"%char.
Definition PRE : string := "pre".
Definition POST : string := "post".

(** *** utils *)

(** [[...new Set(array)]]: [seen] is the set built so far. *)
Fixpoint unique_from {A} (eqb : A -> A -> bool) (seen : list A) (array : list A)
  : list A :=
  match array with
  | [] => []
  | x :: rest =>
      if existsb (eqb x) seen then unique_from eqb seen rest
      else x :: unique_from eqb (x :: seen) rest
  end.

Definition unique (array : list string) : list string :=
  unique_from String.eqb [] array.

(** Equality of possibly undefined strings, as [Set] compares them. *)
Definition value_eqb (a b : option string) : bool :=
  match a, b with
  | Some x, Some y => String.eqb x y
  | None, None => true
  | _, _ => false
  end.

Definition unique_values (array : list (option string)) : list (option string) :=
  unique_from value_eqb [] array.

Definition flatten {A} (arrays : list (list A)) : list A := concat arrays.

(** What [getMatches] pushes: [{match: m[1], index: m[2]}]. *)
Record Match : Type := { m_match : option string; m_index : option string }.

(** The [while ((m = re.exec(str)) !== null)] loop; [fuel] bounds the number
    of rounds.  Every round moves [lastIndex] forward when matches are not
    empty (see [getMatches_loop_fuel]). *)
Fixpoint getMatches_loop (fuel : nat) (re : RegExp) (str : string)
    (lastIndex : nat) : list Match :=
  match fuel with
  | 0 => []
  | S fuel' =>
      match exec re str lastIndex with
      | None => []
      | Some (m, lastIndex') =>
          {| m_match := cap m 1; m_index := cap m 2 |}
            :: getMatches_loop fuel' re str lastIndex'
      end
  end.

Definition getMatches (re : RegExp) (str : string) : list Match :=
  getMatches_loop (S (String.length str)) re str 0.

Fixpoint map_string (f : ascii -> ascii) (s : string) : string :=
  match s with
  | EmptyString => EmptyString
  | String c s' => String (f c) (map_string f s')
  end.

(** [s.replace(/[:\/]/g, m => SWAP_MAP[m])] *)
Definition swapColonAndSlash (s : string) : string := map_string SWAP_MAP s.

(** *** reference extraction *)

(** [new RegExp("(?:npm run" + RE_NAME + ")+", "gi")] *)
Definition re_run : RegExp :=
  {| source := Plus (Seq (lit "npm run") RE_NAME); ignoreCase := true |}.

(** [RegExp("(?:npm-run-all" + RE_FLAGS + RE_NAMES + ")+", "gi")] *)
Definition re_run_all : RegExp :=
  {| source := Plus (Seq (lit "npm-run-all") (Seq RE_FLAGS RE_NAMES));
     ignoreCase := true |}.

Definition getRunScripts (cmd : string) : list (option string) :=
  unique_values (map m_match (getMatches re_run cmd)).

(** [m.match.trim().split(" ").filter(x => x)]; the capture is defined in
    every match of [re_run_all] (see [re_run_all_defined]). *)
Definition clean_spaces (m : Match) : list string :=
  match m_match m with
  | Some names =>
      filter (fun x => negb (String.eqb x "")) (split " " (trim names))
  | None => []
  end.

Definition getRunAllScripts (cmd : string) : list string :=
  unique (flatten (map clean_spaces (getMatches re_run_all cmd))).

(** [array.filter(x => x)] on possibly undefined strings. *)
Fixpoint not_null (array : list (option string)) : list string :=
  match array with
  | [] => []
  | Some s :: rest =>
      if String.eqb s "" then not_null rest else s :: not_null rest
  | None :: rest => not_null rest
  end.

(** *** lifecycle scripts *)

(** [new RegExp("^" + prefix)], for a prefix without special characters
    (the program only passes [PRE] and [POST]). *)
Definition re_prefix (prefix : string) : RegExp :=
  {| source := Seq Bol (lit prefix); ignoreCase := false |}.

(** [scripts[root]] is read under any suffix, so also under the name of
    an inherited property. *)
Definition isLifeCycleScript (prefix name : string) (scripts : Obj.t string)
  : bool :=
  let re := re_prefix prefix in
  let root := slice (String.length prefix) name in
  test_match re name
  && (truthy_property (read scripts root) || includes BUILTINS root).

(** *** styled text

    [chalk] wraps a text in the escape codes of a style; a label is kept as
    the sequence of its styled pieces. *)

Inductive style : Type := plain | cyan | bold | dim.

Definition styled : Type := list (style * string).

Definition chalk (st : style) (text : string) : styled := [(st, text)].

(** *** the passes *)

Section Passes.

(** [minimatch(path, pattern)], the glob test of the library. *)
Variable minimatch : string -> string -> bool.

(** *** wildcards *)

Definition expandWildcard (name : string) (scripts : Obj.t string)
  : list string :=
  let n := swapColonAndSlash name in
  map swapColonAndSlash
    (filter (fun x => minimatch x n)
       (map swapColonAndSlash (Obj.keys scripts))).

Definition expandWildcards (names : list string) (scripts : Obj.t string)
  : list string :=
  flatten (map (fun x => expandWildcard x scripts) names).

(** The names that reach the filter are keys: [expandWildcards] returns
    elements of [Object.keys(scripts)] only. *)
Definition getExistingSubNames (names : list string) (scripts : Obj.t string)
  : list string :=
  filter (fun n => truthy (Obj.get scripts n)) (expandWildcards names scripts).

Definition getSubNames (name : string) (scripts : Obj.t string)
  : list string :=
  let cmd := to_string (Obj.get scripts name) in
  let subNames :=
    not_null (getRunScripts cmd ++ map Some (getRunAllScripts cmd)) in
  getExistingSubNames (unique subNames) scripts.

(** *** 1st pass *)

(** The object built for a script by the first pass. *)
Record script : Type := {
  name : string;
  cmd : string;
  isPre : bool;
  isPost : bool;
  pre : option string;
  post : option string;
  subNames : list string
}.

(** [Object.keys(o).reduce((all, name) => .. o[name] .., {})]: the keys
    in order, each with its value. *)
Definition reduce {A B} (f : Obj.t B -> string -> A -> Obj.t B) (o : Obj.t A)
  : Obj.t B :=
  fold_left (fun all kv => f all (fst kv) (snd kv)) o [].

(** The object literal of the first pass.  [name] is a key; no inherited
    property has a name that starts with [pre] or [post]. *)
Definition detailed (scripts : Obj.t string) (name command : string)
  : script :=
  {| name := name;
     cmd := command;
     isPre := isLifeCycleScript PRE name scripts;
     isPost := isLifeCycleScript POST name scripts;
     pre := Obj.get scripts (PRE ++ name);
     post := Obj.get scripts (POST ++ name);
     subNames := getSubNames name scripts |}.

Definition getDetailedScripts (scripts : Obj.t string) : Obj.t script :=
  reduce (fun all name command =>
            Obj.set all name (detailed scripts name command))
         scripts.

(** *** 2nd pass *)

(** [scripts[n]] as a reference: the key of the entry object, or [None]
    for [undefined].  The second pass reads it for child names, which are
    keys, and for names that start with [pre] or [post]. *)
Definition ref {A} (scripts : Obj.t A) (n : string) : option string :=
  match Obj.get scripts n with
  | Some _ => Some n
  | None => None
  end.

(** The same object once the second pass has added its fields. *)
Record node : Type := {
  base :> script;
  isSub : bool;
  isExplicitSub : bool;
  explicitSubLevel : nat;
  label : styled;
  nodes : list (option string)
}.

Definition gatherAllSubNames (scripts : Obj.t script) : list string :=
  unique (flatten (map (fun kv => subNames (snd kv)) scripts)).

(** The dash of the label is written here in UTF-8. *)
Definition getLabel (s : script) (s_isSub : bool) : styled :=
  let name :=
    if isPre s || isPost s then chalk cyan (name s)
    else if negb s_isSub then chalk bold (name s)
    else chalk plain (name s) in
  name ++ chalk dim (" — " ++ cmd s).

(** [s.nodes.unshift(x)] when [b] holds. *)
Definition unshift_if {A} (b : bool) (x : A) (l : list A) : list A :=
  if b then x :: l else l.

(** [s.nodes.push(x)] when [b] holds. *)
Definition push_if {A} (b : bool) (x : A) (l : list A) : list A :=
  if b then l ++ [x] else l.

(** The entry [s] of [name] after the body of the second pass;
    [gathered] is [gatherAllSubNames(scripts)]. *)
Definition attached (scripts : Obj.t script) (gathered : list string)
    (name : string) (s : script) : node :=
  let s_isSub := includes gathered name in
  let s_nodes := map (ref scripts) (subNames s) in
  let s_nodes :=
    unshift_if (truthy (pre s)) (ref scripts (PRE ++ name)) s_nodes in
  let s_nodes :=
    push_if (truthy (post s)) (ref scripts (POST ++ name)) s_nodes in
  {| base := s;
     isSub := s_isSub;
     isExplicitSub := s_isSub && has_char SEP name;
     explicitSubLevel := List.length (split SEP name) - 1;
     label := getLabel s s_isSub;
     nodes := s_nodes |}.

Definition attachLabelAndNodes (scripts : Obj.t script) : Obj.t node :=
  let gathered := gatherAllSubNames scripts in
  reduce (fun all name s =>
            Obj.set all name (attached scripts gathered name s))
         scripts.

(** Both passes, as [main] chains them. *)
Definition resolve (scripts : Obj.t string) : Obj.t node :=
  attachLabelAndNodes (getDetailedScripts scripts).

(** *** 3rd pass *)

(** [!s.isPre && !s.isPost && !s.isExplicitSub] *)
Definition kept (s : node) : bool :=
  negb (isPre s) && negb (isPost s) && negb (isExplicitSub s).

Definition prune (scripts : Obj.t node) : Obj.t node :=
  reduce (fun all name s => if kept s then Obj.set all name s else all)
         scripts.

(** *** label and nodes *)

Fixpoint insert_sorted (x : string) (l : list string) : list string :=
  match l with
  | [] => [x]
  | y :: l' => if String.leb x y then x :: l else y :: insert_sorted x l'
  end.

(** [names.sort()]: by code unit. *)
Definition sort (names : list string) : list string :=
  fold_right insert_sorted [] names.

(** What [archify] hands to the renderer. *)
Record root : Type := { root_label : string; root_nodes : list (option string) }.

Definition archify (scripts : Obj.t node) (alpha : bool) : root :=
  let names := Obj.keys scripts in
  let names := if alpha then sort names else names in
  {| root_label :=
       NilEmpty.string_of_uint (Nat.to_uint (List.length names)) ++ " scripts";
     root_nodes := map (ref scripts) names |}.

(** *** entry point *)

Record options : Type := {
  opt_p : bool; opt_prune : bool; opt_a : bool; opt_alpha : bool
}.

(** The default value [{}] of the second parameter. *)
Definition no_options : options :=
  {| opt_p := false; opt_prune := false; opt_a := false; opt_alpha := false |}.

(** How a call of the renderer ends. *)
Inductive rendering : Type :=
| rendered          (* the text is returned *)
| stack_overflow    (* RangeError: the recursion does not end *)
| not_an_object.    (* TypeError: a node is undefined *)

(** [nodes.map(node => .. archy(node) ..)]: the nodes in order; the first
    failure is the failure of the whole. *)
Fixpoint all_rendered {N} (visit : N -> rendering) (nodes : list N)
  : rendering :=
  match nodes with
  | [] => rendered
  | node :: rest =>
      match visit node with
      | rendered => all_rendered visit rest
      | failure => failure
      end
  end.

(** Modelled from the spec: the renderer [archy] is not part of the
    sources.  It reads the nodes of a node and calls itself on each of
    them; reference cycles are "not detected", so that on a cycle the
    "materialization would recurse indefinitely".  [path] holds the keys of
    the entries the walk is inside of: a node met again below itself is met
    again without end, and the call stack overflows.  A tree without
    cycle is rendered (the stack is taken to be deep enough for it).
    [fuel] bounds the depth of the walk; the number of entries is enough
    (see [render_fuel]). *)
Fixpoint render (entries : Obj.t node) (fuel : nat) (path : list string)
    (r : option string) : rendering :=
  match r with
  | None => not_an_object
  | Some k =>
      match Obj.get entries k with
      | None => not_an_object
      | Some e =>
          if includes path k then stack_overflow
          else match fuel with
               | 0 => stack_overflow
               | S fuel' => all_rendered (render entries fuel' (k :: path)) (nodes e)
               end
      end
  end.

(** [archy(tree)] for the root that [archify] returns. *)
Definition archy (entries : Obj.t node) (tree : root) : rendering :=
  all_rendered (render entries (List.length entries) []) (root_nodes tree).

(** What a call of [main] does: it throws its [Error], or the renderer
    throws, or it returns [archy(tree)], the text the renderer makes of
    [tree]; the renderer reaches the entry objects (pruned or not) through
    the references. *)
Inductive outcome : Type :=
| Throws (message : string)
| Throws_RangeError
| Throws_TypeError
| Returns_archy (entries : Obj.t node) (tree : root).

Definition main (scripts : option (Obj.t string)) (opts : option options)
  : outcome :=
  let opts := match opts with Some o => o | None => no_options end in
  match scripts with
  | None => Throws "No package.json or no scripts key in this dir"
  | Some scripts =>
      let entries := resolve scripts in
      let detailedScripts :=
        if opt_p opts || opt_prune opts then prune entries else entries in
      let alpha := opt_a opts || opt_alpha opts in
      let tree := archify detailedScripts alpha in
      match archy entries tree with
      | rendered => Returns_archy entries tree
      | stack_overflow => Throws_RangeError
      | not_an_object => Throws_TypeError
      end
  end.

End Passes.

End Resolver.

(** ** The glob test

    The glob-matching library [minimatch] is not part of the sources; the
    resolver takes it as a parameter, and this module gives the matcher
    that the examples run with. *)

Module Minimatch.
Import JS.

(** Modelled from the spec: one segment of [minimatch], "[*] = one
    segment".  One path segment against one pattern segment: [*] stands for
    any run of characters of the segment, every other character for
    itself. *)
Fixpoint glob (p : string) : string -> bool :=
  match p with
  | EmptyString => fun f => String.eqb f ""
  | String c p' =>
      if Ascii.eqb c "*"
      then fix any (f : string) : bool :=
             glob p' f
             || match f with
                | String _ f' => any f'
                | EmptyString => false
                end
      else fun f =>
             match f with
             | String d f' => Ascii.eqb c d && glob p' f'
             | EmptyString => false
             end
  end.

(** Modelled from the spec: one segment of [minimatch]; a segment with a
    wildcard matches no empty segment. *)
Definition segment (p f : string) : bool :=
  if has_char "*" p then negb (String.eqb f "") && glob p f
  else String.eqb f p.

(** Modelled from the spec: the segment walk of [minimatch], "[**] = any
    number of segments".  A segment [**] in the middle stands for any number
    of segments; at the end it covers all the deeper segments. *)
Fixpoint matchOne (pattern : list string) : list string -> bool :=
  match pattern with
  | [] => fun file =>
      match file with
      | [] => true
      | [f] => String.eqb f ""
      | _ => false
      end
  | p :: pattern' =>
      if String.eqb p "**"
      then match pattern' with
           | [] => fun file => match file with [] => false | _ => true end
           | _ =>
               fix swallow (file : list string) : bool :=
                 match file with
                 | [] => false
                 | _ :: file' => matchOne pattern' file || swallow file'
                 end
           end
      else fun file =>
             match file with
             | f :: file' => segment p f && matchOne pattern' file'
             | [] => false
             end
  end.

(** Modelled from the spec: the glob-matching library [minimatch] is not
    part of the sources.  The spec asks for "a standard glob-matching test
    (supporting [*] = one segment, [**] = any number of segments)" between a
    translated name and a translated pattern, whose segments are separated
    by the path separator.  Options, braces, classes and the rule on hidden
    files of the library are outside the spec's words and not modelled. *)
Definition minimatch (path pattern : string) : bool :=
  matchOne (split "/" pattern) (split "/" path).

End Minimatch.

(** ** The earlier variant, [index.js]

    [BUILTINS], [RE_FLAGS], [RE_NAMES], [unique], [flatten],
    [isLifeCycleScript] and [getRunAllScripts] read the same in both files
    and are shared with [Resolver]; the loops over [re.exec] are written
    out in [index.js] and are [Resolver.getMatches] here. *)

Module IndexJs.
Import JS.
Import Resolver.

(** [\s+([a-z0-9_\-]+)]: no colon in a name. *)
Definition RE_NAME : regex :=
  Seq (Plus Space)
      (Group 1 (Plus (Cls [Range "a" "z"; Range "0" "9"; One "_"; One "-"]))).

Definition re_run : RegExp :=
  {| source := Plus (Seq (lit "npm run") RE_NAME); ignoreCase := true |}.

Definition getRunScripts (cmd : string) : list (option string) :=
  unique_values (map m_match (getMatches re_run cmd)).

(** [k.startsWith(p)] *)
Definition startsWith (k p : string) : bool := String.prefix p k.

(** What the callback of [expandWildcard] returns for the name [n]; a
    plain name stands for itself when [flatten] concatenates. *)
Definition expand_one (n : string) (scripts : Obj.t string) : list string :=
  let sp := split ":" n in
  let star := last sp "" in
  let sp := removelast sp in
  match sp with
  | [name] =>
      if String.eqb star "*"
      then filter (fun k => startsWith k (name ++ ":")) (Obj.keys scripts)
      else [n]
  | _ => [n]
  end.

Definition expandWildcard (nodesNames : list string) (scripts : Obj.t string)
  : list string :=
  flatten (map (fun n => expand_one n scripts) nodesNames).

(** Here a plain name reaches the filter as it was written in the
    command, key or not: [scripts[n]] may be an inherited value. *)
Definition getExistingNodeNames (nodesNames : list string)
    (scripts : Obj.t string) : list string :=
  filter (fun n => truthy_property (read scripts n))
    (expandWildcard nodesNames scripts).

Definition getNodesNames (name : string) (scripts : Obj.t string)
  : list string :=
  let cmd := to_string (Obj.get scripts name) in
  let nodesNames :=
    not_null (getRunScripts cmd ++ map Some (getRunAllScripts cmd)) in
  getExistingNodeNames (unique nodesNames) scripts.

Record script : Type := {
  name : string;
  cmd : string;
  isPre : bool;
  isPost : bool;
  pre : option string;
  post : option string;
  nodesNames : list string;
  label : styled
}.

Definition getLabel (s_name s_cmd : string) (s_isPre s_isPost : bool) : styled :=
  let name :=
    if s_isPre || s_isPost then chalk cyan s_name else chalk bold s_name in
  name ++ chalk dim (" — " ++ s_cmd).

(** The object the callback of [getDetailedScripts] builds. *)
Definition detailed (scripts : Obj.t string) (name command : string) : script :=
  let s_isPre := isLifeCycleScript PRE name scripts in
  let s_isPost := isLifeCycleScript POST name scripts in
  {| name := name;
     cmd := command;
     isPre := s_isPre;
     isPost := s_isPost;
     pre := Obj.get scripts (PRE ++ name);
     post := Obj.get scripts (POST ++ name);
     nodesNames := getNodesNames name scripts;
     label := getLabel name command s_isPre s_isPost |}.

Definition getDetailedScripts (scripts : Obj.t string) : Obj.t script :=
  reduce (fun all name command =>
            Obj.set all name (detailed scripts name command))
         scripts.

(** What [scripts[n]] gives as a node: a reference to the entry stored
    under the key [n], or the value every object inherits under the name
    [n] (a function, not an entry), or [undefined]. *)
Inductive node_ref : Type :=
| entry (key : string)
| inherited_value (name : string)
| undefined.

Definition node_of {A} (scripts : Obj.t A) (n : string) : node_ref :=
  match read scripts n with
  | own _ => entry n
  | inherited => inherited_value n
  | absent => undefined
  end.

Record node : Type := {
  base :> script;
  nodes : list node_ref
}.

(** The entry [s] of [name] after the body of [attachNodes]. *)
Definition attached (scripts : Obj.t script) (name : string) (s : script)
  : node :=
  let s_nodes := map (node_of scripts) (nodesNames s) in
  let s_nodes :=
    unshift_if (truthy (pre s)) (node_of scripts (PRE ++ name)) s_nodes in
  let s_nodes :=
    push_if (truthy (post s)) (node_of scripts (POST ++ name)) s_nodes in
  {| base := s; nodes := s_nodes |}.

Definition attachNodes (scripts : Obj.t script) : Obj.t node :=
  reduce (fun all name s => Obj.set all name (attached scripts name s)) scripts.

Definition archify (scripts : Obj.t node) (alpha : bool) : root :=
  let names := Obj.keys scripts in
  let names := if alpha then sort names else names in
  {| root_label :=
       NilEmpty.string_of_uint (Nat.to_uint (List.length names)) ++ " scripts";
     root_nodes := map (ref scripts) names |}.

(** Modelled from the spec: the renderer [archy], as in
    [Resolver.render]; an inherited value has no nodes and is a leaf. *)
Fixpoint render (entries : Obj.t node) (fuel : nat) (path : list string)
    (r : node_ref) : rendering :=
  match r with
  | undefined => not_an_object
  | inherited_value _ => rendered
  | entry k =>
      match Obj.get entries k with
      | None => not_an_object
      | Some e =>
          if includes path k then stack_overflow
          else match fuel with
               | 0 => stack_overflow
               | S fuel' => all_rendered (render entries fuel' (k :: path)) (nodes e)
               end
      end
  end.

(** [archy(tree)] for the root that [archify] returns. *)
Definition archy (entries : Obj.t node) (tree : root) : rendering :=
  all_rendered (render entries (List.length entries) [])
    (map (fun r => match r with Some k => entry k | None => undefined end)
       (root_nodes tree)).

(** [main] throws its own [Error], or a [TypeError] when it reads a flag
    of an absent [options], or the renderer throws, or it returns
    [archy(tree)]. *)
Inductive outcome : Type :=
| Throws (message : string)
| Throws_RangeError
| Throws_TypeError
| Returns_archy (entries : Obj.t node) (tree : root).

Definition main (scripts : option (Obj.t string)) (opts : option options)
  : outcome :=
  match scripts with
  | None => Throws "No package.json or no scripts key in this dir"
  | Some scripts =>
      let detailedScripts := attachNodes (getDetailedScripts scripts) in
      match opts with
      | None => Throws_TypeError
      | Some opts =>
          let alpha := opt_a opts || opt_alpha opts in
          let tree := archify detailedScripts alpha in
          match archy detailedScripts tree with
          | rendered => Returns_archy detailedScripts tree
          | stack_overflow => Throws_RangeError
          | not_an_object => Throws_TypeError
          end
      end
  end.

End IndexJs.

(** * Properties *)

(** ** Dictionaries *)

Module ObjFacts.
Import Obj.

Lemma get_set {V} (o : t V) (k k' : string) (v : V) :
  get (set o k v) k' = if String.eqb k' k then Some v else get o k'.
Proof.
  induction o as [| [k0 v0] o IH]; simpl.
  - reflexivity.
  - destruct (String.eqb_spec k k0) as [-> | Hk]; simpl.
    + destruct (String.eqb k' k0); reflexivity.
    + rewrite IH.
      destruct (String.eqb_spec k' k0) as [-> | Hk'].
      * apply String.eqb_neq in Hk. rewrite String.eqb_sym in Hk.
        rewrite Hk. reflexivity.
      * reflexivity.
Qed.

Lemma get_app {V} (o1 o2 : t V) (k : string) :
  get (o1 ++ o2) k =
  match get o1 k with Some v => Some v | None => get o2 k end.
Proof.
  induction o1 as [| [k0 v0] o1 IH]; simpl.
  - reflexivity.
  - destruct (String.eqb k k0); [reflexivity | exact IH].
Qed.

Lemma get_Some_In {V} (o : t V) (k : string) (v : V) :
  get o k = Some v -> In (k, v) o.
Proof.
  induction o as [| [k0 v0] o IH]; simpl.
  - discriminate.
  - destruct (String.eqb_spec k k0) as [-> | Hk].
    + intros [= ->]. left. reflexivity.
    + intros H. right. exact (IH H).
Qed.

Lemma get_None_keys {V} (o : t V) (k : string) :
  get o k = None <-> ~ In k (keys o).
Proof.
  induction o as [| [k0 v0] o IH]; simpl.
  - tauto.
  - destruct (String.eqb_spec k k0) as [-> | Hk].
    + split; [discriminate | intros H; exfalso; apply H; left; reflexivity].
    + rewrite IH. split.
      * intros H [E | HI]; [congruence | exact (H HI)].
      * intros H HI. apply H. right. exact HI.
Qed.

Lemma In_keys_get {V} (o : t V) (k : string) :
  In k (keys o) -> exists v, get o k = Some v.
Proof.
  intros HI. destruct (get o k) as [v |] eqn:E.
  - exists v. reflexivity.
  - apply get_None_keys in E. contradiction.
Qed.

Lemma get_Some_keys {V} (o : t V) (k : string) (v : V) :
  get o k = Some v -> In k (keys o).
Proof.
  intros H. apply get_Some_In in H. apply (in_map fst) in H. exact H.
Qed.

(** In an object, looking a key up yields the value listed with it. *)
Lemma wf_In_get {V} (o : t V) (k : string) (v : V) :
  wf o -> In (k, v) o -> get o k = Some v.
Proof.
  unfold wf. induction o as [| [k0 v0] o IH]; simpl; intros Hwf HI.
  - contradiction.
  - inversion Hwf as [| ? ? Hnot Hnd]; subst.
    destruct HI as [[= -> ->] | HI].
    + rewrite String.eqb_refl. reflexivity.
    + destruct (String.eqb_spec k k0) as [-> | Hk].
      * exfalso. apply Hnot. apply (in_map fst) in HI. exact HI.
      * exact (IH Hnd HI).
Qed.

Lemma set_fresh {V} (o : t V) (k : string) (v : V) :
  ~ In k (keys o) -> set o k v = o ++ [(k, v)].
Proof.
  induction o as [| [k0 v0] o IH]; simpl; intros Hnot.
  - reflexivity.
  - destruct (String.eqb_spec k k0) as [-> | Hk].
    + exfalso. apply Hnot. left. reflexivity.
    + rewrite IH; [reflexivity | tauto].
Qed.

Lemma keys_set {V} (o : t V) (k : string) (v : V) :
  keys (set o k v) = if in_dec string_dec k (keys o) then keys o else keys o ++ [k].
Proof.
  induction o as [| [k0 v0] o IH]; simpl.
  - reflexivity.
  - destruct (String.eqb_spec k k0) as [-> | Hk]; simpl.
    + destruct (string_dec k0 k0); [reflexivity | congruence].
    + rewrite IH. destruct (string_dec k0 k); [congruence |].
      destruct (in_dec string_dec k (keys o)); reflexivity.
Qed.

Lemma wf_set {V} (o : t V) (k : string) (v : V) : wf o -> wf (set o k v).
Proof.
  unfold wf. intros Hwf. rewrite keys_set.
  destruct (in_dec string_dec k (keys o)) as [HI | Hnot]; [exact Hwf |].
  apply NoDup_app; [exact Hwf | repeat constructor; simpl; tauto |].
  intros x Hx [<- | []]. exact (Hnot Hx).
Qed.

Lemma Forall_set {V} (P : string -> V -> Prop) (o : t V) (k : string) (v : V) :
  Forall (fun kv => P (fst kv) (snd kv)) o -> P k v ->
  Forall (fun kv => P (fst kv) (snd kv)) (set o k v).
Proof.
  intros Ho Hv. induction o as [| [k0 v0] o IH]; simpl.
  - constructor; [exact Hv | constructor].
  - inversion Ho as [| ? ? H0 Ho']; subst.
    destruct (String.eqb_spec k k0) as [-> | Hk]; constructor; auto.
Qed.

(** The accumulating loops: every step either stores [g key value] under
    the key or leaves the accumulator alone. *)
Section Fold.
Context {A B : Type}.
Variable keep : string * A -> bool.
Variable g : string -> A -> B.
Variable step : t B -> string * A -> t B.
Hypothesis step_eq : forall all kv,
  step all kv = if keep kv then set all (fst kv) (g (fst kv) (snd kv)) else all.

(** What the loop leaves under a key: the image of the last kept value
    listed with it. *)
Lemma get_fold (o : t A) (acc : t B) (k : string) :
  get (fold_left step o acc) k =
  match get (rev (filter keep o)) k with
  | Some a => Some (g k a)
  | None => get acc k
  end.
Proof.
  induction o as [| [k0 a0] o IH] using rev_ind; simpl.
  - reflexivity.
  - rewrite fold_left_app, filter_app, rev_app_distr. simpl.
    rewrite step_eq. destruct (keep (k0, a0)) eqn:Ek; simpl.
    + rewrite get_set. destruct (String.eqb_spec k k0) as [-> | Hk];
        [reflexivity | exact IH].
    + exact IH.
Qed.

(** On an object the loop is a filter followed by a map. *)
Lemma fold_wf (o : t A) (acc : t B) :
  NoDup (keys acc ++ keys o) ->
  fold_left step o acc
  = acc ++ map (fun kv => (fst kv, g (fst kv) (snd kv))) (filter keep o).
Proof.
  revert acc. induction o as [| [k0 a0] o IH]; simpl; intros acc Hnd.
  - rewrite app_nil_r. reflexivity.
  - rewrite step_eq. destruct (keep (k0, a0)) eqn:Ek; simpl.
    + rewrite set_fresh.
      * rewrite IH.
        -- rewrite <- app_assoc. reflexivity.
        -- unfold keys in *. rewrite map_app, <- app_assoc. exact Hnd.
      * apply NoDup_remove_2 in Hnd. intros HI. apply Hnd.
        apply in_or_app. left. exact HI.
    + apply IH. apply NoDup_remove_1 in Hnd. exact Hnd.
Qed.

Lemma fold_invariant (P : string -> B -> Prop) (o : t A) (acc : t B) :
  (forall k a, In (k, a) o -> keep (k, a) = true -> P k (g k a)) ->
  wf acc /\ Forall (fun kv => P (fst kv) (snd kv)) acc ->
  wf (fold_left step o acc)
  /\ Forall (fun kv => P (fst kv) (snd kv)) (fold_left step o acc).
Proof.
  revert acc. induction o as [| [k0 a0] o IH]; simpl; intros acc Hg Hacc.
  - exact Hacc.
  - apply IH.
    + intros k a HI. apply Hg. right. exact HI.
    + rewrite step_eq. destruct (keep (k0, a0)) eqn:Ek; [| exact Hacc].
      destruct Hacc as [Hwf Hall]. split.
      * apply wf_set. exact Hwf.
      * apply Forall_set; [exact Hall |].
        apply Hg; [left; reflexivity | exact Ek].
Qed.

(** The keys the loop leaves are the keys of the kept pairs. *)
Lemma keys_fold (o : t A) (k : string) :
  In k (keys (fold_left step o [])) <-> In k (keys (filter keep o)).
Proof.
  assert (E : get (fold_left step o []) k = None
              <-> get (rev (filter keep o)) k = None).
  { rewrite get_fold. simpl. destruct (get (rev (filter keep o)) k);
      split; intros H; try discriminate; reflexivity. }
  rewrite !get_None_keys in E.
  assert (Hrev : In k (keys (rev (filter keep o)))
                 <-> In k (keys (filter keep o))).
  { unfold keys. rewrite map_rev. symmetry. apply in_rev. }
  destruct (in_dec string_dec k (keys (fold_left step o [])));
    destruct (in_dec string_dec k (keys (filter keep o))); tauto.
Qed.

End Fold.

End ObjFacts.

(** ** Strings and expressions *)

Module JSFacts.
Import JS.

Lemma length_slice (n : nat) (s : string) :
  String.length (slice n s) = String.length s - n.
Proof.
  revert s. induction n as [| n IH]; intros s; simpl.
  - lia.
  - destruct s as [| c s]; simpl; [reflexivity | apply IH].
Qed.

Lemma slice_append (p s : string) : slice (String.length p) (p ++ s)%string = s.
Proof.
  induction p as [| c p IH]; simpl; [reflexivity | exact IH].
Qed.

Lemma prefix_cons (a b : ascii) (p s : string) :
  String.prefix (String a p) (String b s) = Ascii.eqb a b && String.prefix p s.
Proof.
  simpl. destruct (ascii_dec a b) as [-> | Hab].
  - rewrite Ascii.eqb_refl. reflexivity.
  - apply Ascii.eqb_neq in Hab. rewrite Hab. reflexivity.
Qed.

Lemma prefix_append (p s : string) :
  String.prefix p s = true <-> exists root, s = (p ++ root)%string.
Proof.
  revert s. induction p as [| a p IH]; intros s.
  - split; [intros _; exists s; reflexivity | intros _; destruct s; reflexivity].
  - destruct s as [| b s].
    + split; [discriminate | intros [root H]; discriminate].
    + rewrite prefix_cons, andb_true_iff, Ascii.eqb_eq, IH. split.
      * intros [-> [root ->]]. exists root. reflexivity.
      * intros [root H]. simpl in H. injection H as -> ->.
        split; [reflexivity | exists root; reflexivity].
Qed.

(** A literal word, matched with case, is a prefix test. *)
Lemma rmatch_lit {R} (n : nat) (p s : string) (c : caps) (k : @cont R) :
  rmatch false n (lit p) s c k =
  if String.prefix p s then k (slice (String.length p) s) c else None.
Proof.
  revert s. induction p as [| a p IH]; intros s.
  - destruct s; reflexivity.
  - destruct s as [| b s]; [reflexivity |].
    rewrite prefix_cons. cbn [lit rmatch step]. unfold chr_match, canon.
    destruct (Ascii.eqb a b); [apply IH | reflexivity].
Qed.

Section Anchored.
Variable p : string.

Local Abbreviation anchored := (Resolver.re_prefix p).

Lemma match_at_anchored_0 (str : string) :
  match_at anchored str 0 =
  if String.prefix p str then Some ([], String.length str - String.length (slice (String.length p) str))
  else None.
Proof.
  unfold match_at, Resolver.re_prefix. cbn [source ignoreCase rmatch slice].
  rewrite Nat.eqb_refl, rmatch_lit. reflexivity.
Qed.

Lemma match_at_anchored_later (str : string) (i : nat) :
  1 <= i <= String.length str -> match_at anchored str i = None.
Proof.
  intros Hi. unfold match_at, Resolver.re_prefix. cbn [source ignoreCase rmatch].
  rewrite length_slice.
  destruct (Nat.eqb_spec (String.length str - i) (String.length str));
    [lia | reflexivity].
Qed.

Lemma search_anchored_later (str : string) (n i : nat) :
  1 <= i -> i + n <= S (String.length str) -> search anchored str n i = None.
Proof.
  revert i. induction n as [| n IH]; intros i Hi Hn; simpl.
  - reflexivity.
  - rewrite match_at_anchored_later by lia. apply IH; lia.
Qed.

(** [str.match(new RegExp("^" + p))] succeeds exactly on the strings
    that start with [p]. *)
Lemma test_match_anchored (str : string) :
  test_match anchored str = String.prefix p str.
Proof.
  unfold test_match, exec.
  destruct (Nat.ltb_spec (String.length str) 0); [lia |].
  rewrite Nat.sub_0_r. cbn [search]. rewrite match_at_anchored_0.
  destruct (String.prefix p str); [reflexivity |].
  rewrite search_anchored_later by lia. reflexivity.
Qed.

End Anchored.

(** *** The matcher and its continuation

    A matcher hands to its continuation a rest of its input, and what it
    returns is what the continuation returned. *)

Section Engine.
Variable icase : bool.
Variable input_len : nat.
Context {R : Type}.

Local Abbreviation matcher := (string -> caps -> @cont R -> option R).

Lemma star_loop_calls (I : caps -> Prop) (m : matcher) (gs : list nat) :
  calls I m ->
  forall n s c k x,
    I c ->
    star_loop m gs n s c k = Some x ->
    exists s' c',
      String.length s' <= String.length s /\ I c' /\ k s' c' = Some x.
Proof.
  intros Hm. induction n as [| n IH]; intros s c k x Hc H; simpl in H.
  - exists s, c. split; [lia | split; [exact Hc | exact H]].
  - destruct (m s (clear gs c) _) as [y |] eqn:E.
    + injection H as ->. apply Hm in E.
      destruct E as [s1 [c1 [Hlen [Hc1 E]]]].
      destruct (Nat.ltb_spec (String.length s1) (String.length s));
        [| discriminate].
      apply IH in E; [| exact Hc1].
      destruct E as [s2 [c2 [Hlen2 [Hc2 E]]]].
      exists s2, c2. split; [lia | split; [exact Hc2 | exact E]].
    + exists s, c. split; [lia | split; [exact Hc | exact H]].
Qed.

Lemma step_calls (test : ascii -> bool) (s : string) (c : caps)
    (k : @cont R) (x : R) :
  step test s c k = Some x ->
  exists s', String.length s' < String.length s /\ k s' c = Some x.
Proof.
  destruct s as [| b s]; simpl; [discriminate |].
  destruct (test b); [| discriminate].
  intros H. exists s. split; [simpl; lia | exact H].
Qed.

Lemma rmatch_calls (r : regex) :
  calls (R := R) (fun _ => True) (rmatch icase input_len r).
Proof.
  induction r as [| | a | items | | | r1 IH1 r2 IH2 | r1 IH1 | r1 IH1 | i r1 IH1];
    intros s c k x H; cbn [rmatch] in H.
  - exists s, c. split; [lia | split; [exact I | exact H]].
  - destruct (Nat.eqb (String.length s) input_len); [| discriminate].
    exists s, c. split; [lia | split; [exact I | exact H]].
  - apply step_calls in H. destruct H as [s' [Hlen H]].
    exists s', c. split; [lia | split; [exact I | exact H]].
  - apply step_calls in H. destruct H as [s' [Hlen H]].
    exists s', c. split; [lia | split; [exact I | exact H]].
  - apply step_calls in H. destruct H as [s' [Hlen H]].
    exists s', c. split; [lia | split; [exact I | exact H]].
  - apply step_calls in H. destruct H as [s' [Hlen H]].
    exists s', c. split; [lia | split; [exact I | exact H]].
  - apply IH1 in H. destruct H as [s1 [c1 [Hlen1 [_ H]]]].
    apply IH2 in H. destruct H as [s2 [c2 [Hlen2 [_ H]]]].
    exists s2, c2. split; [lia | split; [exact I | exact H]].
  - apply (star_loop_calls (fun _ => True) _ _ IH1) in H; [exact H | exact I].
  - apply IH1 in H. destruct H as [s1 [c1 [Hlen1 [_ H]]]].
    apply (star_loop_calls (fun _ => True) _ _ IH1) in H; [| exact I].
    destruct H as [s2 [c2 [Hlen2 [_ H]]]].
    exists s2, c2. split; [lia | split; [exact I | exact H]].
  - apply IH1 in H. destruct H as [s1 [c1 [Hlen1 [_ H]]]].
    eexists. eexists. split; [exact Hlen1 | split; [exact I | exact H]].
Qed.

Lemma star_loop_local (m : matcher) (gs : list nat) (n : nat) :
  local m -> local (star_loop m gs n).
Proof.
  intros Hm. induction n as [| n IH]; intros s c k1 k2 Hk; simpl.
  - apply Hk. lia.
  - rewrite (Hk s c) by lia.
    erewrite (Hm s (clear gs c)); [reflexivity |].
    intros s' c' Hlen. cbv beta.
    destruct (Nat.ltb_spec (String.length s') (String.length s));
      [| reflexivity].
    apply IH. intros s2 c2 Hlen2. apply Hk. lia.
Qed.

Lemma step_local (test : ascii -> bool) : local (R := R) (step test).
Proof.
  intros s c k1 k2 Hk. destruct s as [| b s]; simpl; [reflexivity |].
  destruct (test b); [| reflexivity]. apply Hk. simpl. lia.
Qed.

Lemma rmatch_local (r : regex) : local (R := R) (rmatch icase input_len r).
Proof.
  induction r as [| | a | items | | | r1 IH1 r2 IH2 | r1 IH1 | r1 IH1 | i r1 IH1];
    intros s c k1 k2 Hk; cbn [rmatch].
  - apply Hk. lia.
  - rewrite (Hk s c) by lia. reflexivity.
  - apply step_local. exact Hk.
  - apply step_local. exact Hk.
  - apply step_local. exact Hk.
  - apply step_local. exact Hk.
  - apply IH1. intros s1 c1 Hlen1. apply IH2.
    intros s2 c2 Hlen2. apply Hk. lia.
  - apply star_loop_local; [exact IH1 | exact Hk].
  - apply IH1. intros s1 c1 Hlen1.
    apply star_loop_local; [exact IH1 |].
    intros s2 c2 Hlen2. apply Hk. lia.
  - apply IH1. intros s1 c1 Hlen1. apply Hk. exact Hlen1.
Qed.

(** The bound of [star_loop] is exact: with the length of the input as
    bound, a larger bound changes nothing. *)
Lemma star_loop_bound (m : matcher) (gs : list nat) :
  local m -> calls (fun _ => True) m ->
  forall n1 n2 s c k,
    String.length s <= n1 -> String.length s <= n2 ->
    star_loop m gs n1 s c k = star_loop m gs n2 s c k.
Proof.
  intros Hloc Hcalls.
  assert (Hzero : forall n s c k,
            String.length s = 0 -> star_loop m gs n s c k = k s c).
  { intros [| n] s c k Hs; simpl; [reflexivity |].
    destruct (m s (clear gs c) _) as [y |] eqn:E; [| reflexivity].
    apply Hcalls in E. destruct E as [s1 [c1 [Hlen [_ E]]]].
    destruct (Nat.ltb_spec (String.length s1) (String.length s));
      [lia | discriminate]. }
  induction n1 as [| n1 IH]; intros n2 s c k H1 H2.
  - rewrite !Hzero by lia. reflexivity.
  - destruct n2 as [| n2]; [rewrite !Hzero by lia; reflexivity |].
    simpl. erewrite (Hloc s (clear gs c)); [reflexivity |].
    intros s' c' Hlen. cbv beta.
    destruct (Nat.ltb_spec (String.length s') (String.length s));
      [| reflexivity].
    apply IH; lia.
Qed.

(** In particular the bound [rmatch] gives to [*] is exact. *)
Lemma rmatch_Star_bound (r : regex) (n : nat) (s : string) (c : caps)
    (k : @cont R) :
  String.length s <= n ->
  star_loop (rmatch icase input_len r) (groups r) n s c k
  = rmatch icase input_len (Star r) s c k.
Proof.
  intros Hn. cbn [rmatch].
  apply star_loop_bound;
    [apply rmatch_local | apply rmatch_calls | exact Hn | lia].
Qed.

End Engine.

(** *** The two expressions of the extractor

    Both have the shape [(?:w X (G))+] where the word [w] is not empty and
    [(G)] is the first capturing group: a match is never empty and defines
    the group. *)

Section Extractor.
Variable a : ascii.
Variables w x g : regex.

Local Abbreviation body := (Seq (Seq (Chr a) w) (Seq x (Group 1 g))).

Variable re : RegExp.
Hypothesis re_shape : source re = Plus body.

Lemma cap_set_cap (i : nat) (v : string) (c : caps) : cap (set_cap i v c) i = Some v.
Proof. unfold set_cap. simpl. rewrite Nat.eqb_refl. reflexivity. Qed.

Lemma body_calls {R} (icase : bool) (n : nat) (s : string) (c : caps)
    (k : @cont R) (r : R) :
  rmatch icase n body s c k = Some r ->
  exists s' c',
    String.length s' < String.length s /\ cap c' 1 <> None /\ k s' c' = Some r.
Proof.
  cbn [rmatch]. intros H.
  apply step_calls in H. destruct H as [s1 [Hlen1 H]].
  apply rmatch_calls in H. destruct H as [s2 [c2 [Hlen2 [_ H]]]].
  apply rmatch_calls in H. destruct H as [s3 [c3 [Hlen3 [_ H]]]].
  apply rmatch_calls in H. destruct H as [s4 [c4 [Hlen4 [_ H]]]].
  eexists. eexists. split; [| split; [| exact H]].
  - lia.
  - rewrite cap_set_cap. discriminate.
Qed.

Lemma rmatch_Plus {R} (icase : bool) (n : nat) (r : regex) (s : string)
    (c : caps) (k : @cont R) :
  rmatch icase n (Plus r) s c k
  = rmatch icase n r s (clear (groups r) c)
      (fun s' c' =>
         star_loop (rmatch icase n r) (groups r) (String.length s') s' c' k).
Proof. reflexivity. Qed.

Lemma match_at_extractor (str : string) (i : nat) (c : caps) (e : nat) :
  i <= String.length str ->
  match_at re str i = Some (c, e) ->
  i < e <= String.length str /\ cap c 1 <> None.
Proof.
  intros Hi. unfold match_at. rewrite re_shape, rmatch_Plus. intros H.
  apply body_calls in H. destruct H as [s1 [c1 [Hlen1 [Hc1 H]]]].
  apply (star_loop_calls (fun c => cap c 1 <> None)) in H.
  - destruct H as [s2 [c2 [Hlen2 [Hc2 H]]]]. injection H as <- <-.
    rewrite length_slice in Hlen1. split; [lia | exact Hc2].
  - intros s0 c0 k0 x0 H0. apply body_calls in H0.
    destruct H0 as [s' [c' [Hlen' [Hc' H0]]]].
    exists s', c'. split; [lia | split; [exact Hc' | exact H0]].
  - exact Hc1.
Qed.

Lemma search_extractor (str : string) (n i : nat) (c : caps) (e : nat) :
  i + n <= S (String.length str) ->
  search re str n i = Some (c, e) ->
  i < e <= String.length str /\ cap c 1 <> None.
Proof.
  revert i. induction n as [| n IH]; intros i Hn H; simpl in H.
  - discriminate.
  - destruct (match_at re str i) as [[c0 e0] |] eqn:E.
    + injection H as -> ->. apply match_at_extractor in E; [exact E | lia].
    + apply IH in H; [| lia]. destruct H as [He Hc]. split; [lia | exact Hc].
Qed.

(** Every [exec] that succeeds moves [lastIndex] forward and defines the
    first group. *)
Lemma exec_extractor (str : string) (i : nat) (c : caps) (e : nat) :
  exec re str i = Some (c, e) ->
  i < e <= String.length str /\ cap c 1 <> None.
Proof.
  unfold exec. destruct (Nat.ltb_spec (String.length str) i); [discriminate |].
  apply search_extractor. lia.
Qed.

End Extractor.

End JSFacts.

(** ** The resolver *)

Module ResolverFacts.
Import JS.
Import Resolver.
Import ObjFacts.
Import JSFacts.

(** *** utils *)

Section Unique.
Context {A : Type}.
Variable eqb : A -> A -> bool.
Hypothesis eqb_eq : forall x y, eqb x y = true <-> x = y.

Lemma existsb_eqb (x : A) (l : list A) : existsb (eqb x) l = true <-> In x l.
Proof.
  rewrite existsb_exists. split.
  - intros [y [Hy E]]. apply eqb_eq in E. subst. exact Hy.
  - intros H. exists x. split; [exact H | apply eqb_eq; reflexivity].
Qed.

Lemma In_unique_from (seen array : list A) (x : A) :
  In x (unique_from eqb seen array) <-> In x array /\ ~ In x seen.
Proof.
  revert seen. induction array as [| y rest IH]; intros seen; simpl.
  - tauto.
  - destruct (existsb (eqb y) seen) eqn:E.
    + apply existsb_eqb in E. rewrite IH. split.
      * intros [H1 H2]. tauto.
      * intros [[-> | H1] H2]; [contradiction | tauto].
    + assert (Hy : ~ In y seen).
      { intros H. apply existsb_eqb in H. congruence. }
      simpl. rewrite IH. simpl. split.
      * intros [-> | [H1 H2]]; [tauto |]. split; [tauto |].
        intros H. apply H2. right. exact H.
      * intros [[-> | H1] H2]; [tauto |].
        destruct (existsb (eqb y) [x]) eqn:Ex.
        -- apply existsb_eqb in Ex. destruct Ex as [-> | []]. tauto.
        -- right. split; [exact H1 |]. intros [-> | H]; [| tauto].
           simpl in Ex. rewrite (proj2 (eqb_eq x x) eq_refl) in Ex.
           discriminate.
Qed.

Lemma NoDup_unique_from (seen array : list A) :
  NoDup (unique_from eqb seen array).
Proof.
  revert seen. induction array as [| y rest IH]; intros seen; simpl.
  - constructor.
  - destruct (existsb (eqb y) seen); [apply IH |].
    constructor; [| apply IH].
    rewrite In_unique_from. simpl. tauto.
Qed.
End Unique.

Lemma value_eqb_eq (a b : option string) : value_eqb a b = true <-> a = b.
Proof.
  destruct a as [x |], b as [y |]; simpl.
  - rewrite String.eqb_eq. split; [intros -> | intros [= ->]]; reflexivity.
  - split; discriminate.
  - split; discriminate.
  - tauto.
Qed.

Lemma NoDup_unique (array : list string) : NoDup (unique array).
Proof. apply NoDup_unique_from. exact String.eqb_eq. Qed.

Lemma In_unique (array : list string) (x : string) :
  In x (unique array) <-> In x array.
Proof.
  unfold unique. rewrite (In_unique_from _ String.eqb_eq). simpl. tauto.
Qed.

Lemma NoDup_getRunScripts (cmd : string) : NoDup (getRunScripts cmd).
Proof. apply NoDup_unique_from. exact value_eqb_eq. Qed.

Lemma NoDup_getRunAllScripts (cmd : string) : NoDup (getRunAllScripts cmd).
Proof. apply NoDup_unique. Qed.

Lemma truthy_iff (v : option string) :
  truthy v = true <-> exists c, v = Some c /\ c <> "".
Proof.
  destruct v as [c |]; simpl.
  - rewrite negb_true_iff, String.eqb_neq. split.
    + intros H. exists c. split; [reflexivity | exact H].
    + intros [c' [[= <-] H]]. exact H.
  - split; [discriminate | intros [c [H _]]; discriminate].
Qed.

Lemma includes_In (a : list string) (x : string) :
  includes a x = true <-> In x a.
Proof. apply existsb_eqb. exact String.eqb_eq. Qed.

(** What [o[k]] reads is truthy for an own non-empty string and for an
    inherited property that no own property hides. *)
Lemma truthy_property_iff (o : Obj.t string) (k : string) :
  truthy_property (read o k) = true
  <-> (exists c, Obj.get o k = Some c /\ c <> "")
      \/ (Obj.get o k = None /\ In k OBJECT_PROTOTYPE).
Proof.
  unfold read. destruct (Obj.get o k) as [c |] eqn:E.
  - simpl. rewrite negb_true_iff, String.eqb_neq. split.
    + intros H. left. exists c. split; [reflexivity | exact H].
    + intros [[c' [[= <-] H]] | [H _]]; [exact H | discriminate H].
  - destruct (includes OBJECT_PROTOTYPE k) eqn:Ei; cbn [truthy_property].
    + apply includes_In in Ei. split; [| reflexivity].
      intros _. right. split; [reflexivity | exact Ei].
    + split; [discriminate |].
      intros [[c [H _]] | [_ H]]; [discriminate H |].
      apply includes_In in H. congruence.
Qed.

(** *** the loop over [re.exec] *)

Section GetMatches.
Variable a : ascii.
Variables w x g : regex.
Variable re : RegExp.
Hypothesis re_shape :
  source re = Plus (Seq (Seq (Chr a) w) (Seq x (Group 1 g))).

(** The loop has ended within its rounds: more rounds change nothing. *)
Lemma getMatches_loop_fuel (str : string) (fuel1 fuel2 i : nat) :
  String.length str - i < fuel1 -> String.length str - i < fuel2 ->
  getMatches_loop fuel1 re str i = getMatches_loop fuel2 re str i.
Proof.
  revert fuel2 i. induction fuel1 as [| fuel1 IH]; intros fuel2 i H1 H2.
  - lia.
  - destruct fuel2 as [| fuel2]; [lia |]. simpl.
    destruct (exec re str i) as [[c e] |] eqn:E; [| reflexivity].
    apply (exec_extractor a w x g re re_shape) in E. destruct E as [He _].
    f_equal. apply IH; lia.
Qed.

(** Every match defines [m[1]]. *)
Lemma getMatches_loop_defined (str : string) (fuel i : nat) :
  Forall (fun m => m_match m <> None) (getMatches_loop fuel re str i).
Proof.
  revert i. induction fuel as [| fuel IH]; intros i; simpl.
  - constructor.
  - destruct (exec re str i) as [[c e] |] eqn:E; [| constructor].
    apply (exec_extractor a w x g re re_shape) in E. destruct E as [_ Hc].
    constructor; [exact Hc | apply IH].
Qed.

End GetMatches.

Lemma re_run_defined (cmd : string) :
  Forall (fun m => m_match m <> None) (getMatches re_run cmd).
Proof.
  apply (getMatches_loop_defined "n" (lit "pm run") (Plus Space)
           (Plus (Cls [Range "a" "z"; Range "0" "9"; One "_"; One ":"; One "-"]))).
  reflexivity.
Qed.

Lemma re_run_all_defined (cmd : string) :
  Forall (fun m => m_match m <> None) (getMatches re_run_all cmd).
Proof.
  apply (getMatches_loop_defined "n" (lit "pm-run-all") RE_FLAGS
           (Plus (Seq (Plus Space)
                      (Plus (Cls [Range "a" "z"; Range "0" "9"; One "_";
                                  One ":"; One "-"; One "*"]))))).
  reflexivity.
Qed.

Lemma getMatches_re_run_fuel (cmd : string) (fuel : nat) :
  String.length cmd < fuel ->
  getMatches_loop fuel re_run cmd 0 = getMatches re_run cmd.
Proof.
  intros H. unfold getMatches.
  apply (getMatches_loop_fuel "n" (lit "pm run") (Plus Space)
           (Plus (Cls [Range "a" "z"; Range "0" "9"; One "_"; One ":"; One "-"])));
    [reflexivity | lia | lia].
Qed.

Lemma getMatches_re_run_all_fuel (cmd : string) (fuel : nat) :
  String.length cmd < fuel ->
  getMatches_loop fuel re_run_all cmd 0 = getMatches re_run_all cmd.
Proof.
  intros H. unfold getMatches.
  apply (getMatches_loop_fuel "n" (lit "pm-run-all") RE_FLAGS
           (Plus (Seq (Plus Space)
                      (Plus (Cls [Range "a" "z"; Range "0" "9"; One "_";
                                  One ":"; One "-"; One "*"])))));
    [reflexivity | lia | lia].
Qed.

(** No direct invocation yields an undefined name. *)
Lemma getRunScripts_defined (cmd : string) :
  ~ In None (getRunScripts cmd).
Proof.
  unfold getRunScripts, unique_values.
  rewrite (In_unique_from _ value_eqb_eq). intros [H _].
  apply in_map_iff in H. destruct H as [m [E Hm]].
  pose proof (re_run_defined cmd) as Hall. rewrite Forall_forall in Hall.
  exact (Hall m Hm E).
Qed.

(** [RE_FLAGS] skips the flags that follow the keyword.  A flag after the
    first name is read as a name, since a name may hold a dash; so is a flag
    that nothing follows.  Such a token leaves the child names later, when
    no script has that name. *)
Lemma getRunAllScripts_flag_after_name :
  getRunAllScripts "npm-run-all clean -s build" = ["clean"; "-s"; "build"]
  /\ getRunAllScripts "npm-run-all --parallel" = ["--parallel"].
Proof. split; vm_compute; reflexivity. Qed.

(** *** wildcards *)

Lemma SWAP_MAP_involutive (c : ascii) : SWAP_MAP (SWAP_MAP c) = c.
Proof.
  unfold SWAP_MAP.
  destruct (Ascii.eqb_spec c ":") as [-> | H1]; [reflexivity |].
  destruct (Ascii.eqb_spec c "/") as [-> | H2]; [reflexivity |].
  apply Ascii.eqb_neq in H1, H2. rewrite H1, H2. reflexivity.
Qed.

Lemma swapColonAndSlash_involutive (s : string) :
  swapColonAndSlash (swapColonAndSlash s) = s.
Proof.
  unfold swapColonAndSlash. induction s as [| c s IH]; simpl.
  - reflexivity.
  - rewrite SWAP_MAP_involutive, IH. reflexivity.
Qed.

Section Wildcards.
Variable minimatch : string -> string -> bool.

Lemma In_expandWildcard (x n : string) (scripts : Obj.t string) :
  In n (expandWildcard minimatch x scripts) -> In n (Obj.keys scripts).
Proof.
  unfold expandWildcard. rewrite in_map_iff.
  intros [y [<- Hy]]. apply filter_In in Hy. destruct Hy as [Hy _].
  apply in_map_iff in Hy. destruct Hy as [k [<- Hk]].
  rewrite swapColonAndSlash_involutive. exact Hk.
Qed.

Lemma In_getExistingSubNames (names : list string) (n : string)
    (scripts : Obj.t string) :
  In n (getExistingSubNames minimatch names scripts) ->
  In n (Obj.keys scripts) /\ truthy (Obj.get scripts n) = true.
Proof.
  unfold getExistingSubNames, expandWildcards, flatten.
  intros H. apply filter_In in H. destruct H as [H Ht].
  split; [| exact Ht].
  apply in_concat in H. destruct H as [l [Hl Hn]].
  apply in_map_iff in Hl. destruct Hl as [x [<- _]].
  exact (In_expandWildcard _ _ _ Hn).
Qed.

Lemma In_getSubNames (name n : string) (scripts : Obj.t string) :
  In n (getSubNames minimatch name scripts) ->
  In n (Obj.keys scripts) /\ truthy (Obj.get scripts n) = true.
Proof. apply In_getExistingSubNames. Qed.

Lemma NoDup_app_In {A} (l1 l2 : list A) (x : A) :
  NoDup (l1 ++ l2) -> In x l1 -> In x l2 -> False.
Proof.
  induction l1 as [| y l1 IH]; simpl; intros Hnd H1 H2.
  - contradiction.
  - inversion Hnd as [| ? ? Hnot Hnd']; subst.
    destruct H1 as [-> | H1].
    + apply Hnot. apply in_or_app. right. exact H2.
    + exact (IH Hnd' H1 H2).
Qed.

(** Whatever the glob test is, as long as a name matches itself and the
    wildcard matches it, a name referenced directly and through the
    wildcard comes twice. *)
Lemma expansion_repeats_direct_name :
  minimatch "test/lint" "test/lint" = true ->
  minimatch "test/lint" "test/*" = true ->
  ~ NoDup
      (getSubNames minimatch "test"
         [("test", "npm-run-all test:lint test:*");
          ("test:lint", "eslint .");
          ("test:unit", "mocha")]).
Proof.
  intros Hself Hstar. unfold getSubNames.
  assert (E : unique
                (not_null
                   (getRunScripts
                      (to_string
                         (Obj.get
                            [("test", "npm-run-all test:lint test:*");
                             ("test:lint", "eslint ."); ("test:unit", "mocha")]
                            "test"))
                    ++ map Some
                         (getRunAllScripts
                            (to_string
                               (Obj.get
                                  [("test", "npm-run-all test:lint test:*");
                                   ("test:lint", "eslint .");
                                   ("test:unit", "mocha")]
                                  "test")))))
              = ["test:lint"; "test:*"]) by (vm_compute; reflexivity).
  rewrite E. clear E.
  unfold getExistingSubNames, expandWildcards, flatten.
  cbn [map concat]. rewrite app_nil_r, filter_app.
  intros Hnd. apply (NoDup_app_In _ _ "test:lint" Hnd).
  - apply filter_In. split; [| reflexivity].
    unfold expandWildcard. apply in_map_iff. exists "test/lint".
    split; [reflexivity |]. apply filter_In.
    split; [right; left; reflexivity | exact Hself].
  - apply filter_In. split; [| reflexivity].
    unfold expandWildcard. apply in_map_iff. exists "test/lint".
    split; [reflexivity |]. apply filter_In.
    split; [right; left; reflexivity | exact Hstar].
Qed.

End Wildcards.

(** *** the accumulating passes *)

Lemma filter_all {A} (l : list A) : filter (fun _ => true) l = l.
Proof. induction l as [| x l IH]; simpl; [reflexivity | rewrite IH; reflexivity]. Qed.

Section ReduceSet.
Context {A B : Type}.
Variable g : string -> A -> B.
Variable o : Obj.t A.

Local Abbreviation reduce_set :=
  (reduce (fun all name a => Obj.set all name (g name a)) o).

Lemma reduce_set_In (k : string) (b : B) :
  In (k, b) reduce_set -> exists a, In (k, a) o /\ b = g k a.
Proof.
  intros HI.
  pose proof (fold_invariant (fun _ => true) g
                (fun all kv => Obj.set all (fst kv) (g (fst kv) (snd kv)))
                (fun _ _ => eq_refl)
                (fun k b => exists a, In (k, a) o /\ b = g k a) o []) as H.
  destruct H as [_ H].
  - intros k0 a0 H0 _. exists a0. split; [exact H0 | reflexivity].
  - split; [constructor | constructor].
  - rewrite Forall_forall in H. exact (H (k, b) HI).
Qed.

Lemma reduce_set_keys (k : string) :
  In k (Obj.keys reduce_set) <-> In k (Obj.keys o).
Proof.
  unfold reduce.
  rewrite (keys_fold (fun _ => true) g
             (fun all kv => Obj.set all (fst kv) (g (fst kv) (snd kv)))
             (fun _ _ => eq_refl)).
  rewrite filter_all. tauto.
Qed.

Lemma reduce_set_get (k : string) :
  In k (Obj.keys o) ->
  exists a, In (k, a) o /\ Obj.get reduce_set k = Some (g k a).
Proof.
  intros Hk. apply reduce_set_keys in Hk. apply In_keys_get in Hk.
  destruct Hk as [b Hb]. pose proof (get_Some_In _ _ _ Hb) as HI.
  apply reduce_set_In in HI. destruct HI as [a [Ha ->]].
  exists a. split; [exact Ha | exact Hb].
Qed.

(** On an object the pass visits every key once: it is a map. *)
Lemma reduce_set_wf :
  Obj.wf o ->
  reduce_set = map (fun kv => (fst kv, g (fst kv) (snd kv))) o.
Proof.
  intros Hwf. unfold reduce.
  rewrite (fold_wf (fun _ => true) g
             (fun all kv => Obj.set all (fst kv) (g (fst kv) (snd kv)))
             (fun _ _ => eq_refl)).
  - rewrite filter_all. reflexivity.
  - exact Hwf.
Qed.

Lemma ref_reduce_set (k : string) :
  In k (Obj.keys o) -> ref reduce_set k = Some k.
Proof.
  intros Hk. destruct (reduce_set_get k Hk) as [a [_ E]].
  unfold ref. rewrite E. reflexivity.
Qed.
End ReduceSet.

Lemma ref_Some {A} (o : Obj.t A) (n k : string) : ref o n = Some k -> n = k.
Proof. unfold ref. destruct (Obj.get o n); [intros [= ->]; reflexivity | discriminate]. Qed.

Lemma In_map_ref {A} (o : Obj.t A) (l : list string) (k : string) :
  In (Some k) (map (ref o) l) -> In k l.
Proof.
  rewrite in_map_iff. intros [n [E Hn]]. apply ref_Some in E. subst. exact Hn.
Qed.

Lemma In_unshift_if {A} (b : bool) (x y : A) (l : list A) :
  In y (unshift_if b x l) <-> (b = true /\ y = x) \/ In y l.
Proof.
  destruct b; simpl; split; intros H.
  - destruct H as [<- | H]; [left; split; reflexivity | right; exact H].
  - destruct H as [[_ ->] | H]; [left; reflexivity | right; exact H].
  - right. exact H.
  - destruct H as [[H _] | H]; [discriminate | exact H].
Qed.

Lemma In_push_if {A} (b : bool) (x y : A) (l : list A) :
  In y (push_if b x l) <-> In y l \/ (b = true /\ y = x).
Proof.
  destruct b; simpl.
  - rewrite in_app_iff. simpl. split; intros [H | H]; try tauto.
    + destruct H as [<- | []]. right. split; reflexivity.
    + destruct H as [_ ->]. right. left. reflexivity.
  - split; [tauto | intros [H | [H _]]; [exact H | discriminate]].
Qed.

Lemma hd_push_if {A} (b : bool) (x y : A) (l : list A) :
  hd_error (push_if b x (y :: l)) = Some y.
Proof. destruct b; reflexivity. Qed.

Section Passes.
Variable minimatch : string -> string -> bool.
Variable scripts : Obj.t string.

Local Abbreviation pass1 := (getDetailedScripts minimatch scripts).
Local Abbreviation pass2 := (resolve minimatch scripts).

Lemma pass1_In (k : string) (s : script) :
  In (k, s) pass1 ->
  exists c, In (k, c) scripts /\ s = detailed minimatch scripts k c.
Proof. apply (reduce_set_In (detailed minimatch scripts) scripts). Qed.

Lemma pass1_keys (k : string) :
  In k (Obj.keys pass1) <-> In k (Obj.keys scripts).
Proof. apply (reduce_set_keys (detailed minimatch scripts) scripts). Qed.

Lemma pass2_In (k : string) (e : node) :
  In (k, e) pass2 ->
  exists c, In (k, c) scripts
    /\ e = attached pass1 (gatherAllSubNames pass1) k
             (detailed minimatch scripts k c).
Proof.
  intros H.
  apply (reduce_set_In (attached pass1 (gatherAllSubNames pass1)) pass1) in H.
  destruct H as [s [Hs ->]]. apply pass1_In in Hs.
  destruct Hs as [c [Hc ->]]. exists c. split; [exact Hc | reflexivity].
Qed.

Lemma pass2_keys (k : string) :
  In k (Obj.keys pass2) <-> In k (Obj.keys scripts).
Proof.
  rewrite <- pass1_keys.
  apply (reduce_set_keys (attached pass1 (gatherAllSubNames pass1)) pass1).
Qed.

Lemma pass2_get (k : string) :
  In k (Obj.keys scripts) ->
  exists c e, In (k, c) scripts /\ Obj.get pass2 k = Some e
    /\ e = attached pass1 (gatherAllSubNames pass1) k
             (detailed minimatch scripts k c).
Proof.
  intros Hk. apply pass2_keys in Hk. apply In_keys_get in Hk.
  destruct Hk as [e He]. pose proof (get_Some_In _ _ _ He) as HI.
  apply pass2_In in HI. destruct HI as [c [Hc ->]].
  exists c. eexists. split; [exact Hc |]. split; [exact He | reflexivity].
Qed.

Lemma ref_pass1 (k : string) :
  In k (Obj.keys scripts) -> ref pass1 k = Some k.
Proof. apply (ref_reduce_set (detailed minimatch scripts) scripts). Qed.

Lemma ref_pass2 (k : string) :
  In k (Obj.keys scripts) -> ref pass2 k = Some k.
Proof.
  intros Hk. apply pass1_keys in Hk.
  apply (ref_reduce_set (attached pass1 (gatherAllSubNames pass1)) pass1).
  exact Hk.
Qed.

Lemma truthy_keys (k : string) :
  truthy (Obj.get scripts k) = true -> In k (Obj.keys scripts).
Proof.
  intros H. apply truthy_iff in H. destruct H as [c [H _]].
  exact (get_Some_keys _ _ _ H).
Qed.

End Passes.

End ResolverFacts.

(** ** The earlier variant *)

Module IndexJsFacts.
Import JS.
Import Resolver.
Import ObjFacts.
Import JSFacts.
Import ResolverFacts.

Lemma index_getRunScripts_example :
  IndexJs.getRunScripts "npm run build && npm run test"
  = [Some "build"; Some "test"].
Proof. vm_compute. reflexivity. Qed.

(** Without the colon in [RE_NAME], a direct invocation of a namespaced
    script stops at the colon. *)
Lemma index_getRunScripts_colon :
  IndexJs.getRunScripts "npm run test:unit" = [Some "test"]
  /\ getRunScripts "npm run test:unit" = [Some "test:unit"].
Proof. split; vm_compute; reflexivity. Qed.

Lemma index_In_getNodesNames (name n : string) (scripts : Obj.t string) :
  In n (IndexJs.getNodesNames name scripts) ->
  truthy_property (read scripts n) = true.
Proof.
  unfold IndexJs.getNodesNames, IndexJs.getExistingNodeNames.
  intros H. apply filter_In in H. tauto.
Qed.

(** A name that is no key but a property every object inherits passes the
    test of [getExistingNodeNames]; its node is the inherited value. *)
Lemma index_inherited_name_is_kept :
  IndexJs.getNodesNames "a" [("a", "npm run constructor")] = ["constructor"]
  /\ option_map IndexJs.nodes
       (Obj.get (IndexJs.attachNodes
                   (IndexJs.getDetailedScripts [("a", "npm run constructor")]))
          "a")
     = Some [IndexJs.inherited_value "constructor"].
Proof. split; vm_compute; reflexivity. Qed.

Lemma index_getNodesNames_repeats_expanded_name :
  IndexJs.getNodesNames "test"
    [("test", "npm-run-all test:lint test:*");
     ("test:lint", "eslint .");
     ("test:unit", "mocha")]
  = ["test:lint"; "test:lint"; "test:unit"].
Proof. vm_compute. reflexivity. Qed.

(** Only a single-level wildcard is expanded. *)
Lemma index_expandWildcard_examples (lint unit_ build fast : string) :
  IndexJs.expandWildcard ["test:*"]
    [("test:lint", lint); ("test:unit", unit_); ("build", build);
     ("test:unit:fast", fast)]
  = ["test:lint"; "test:unit"; "test:unit:fast"]
  /\ IndexJs.expandWildcard ["test:**"]
       [("test:lint", lint); ("test:unit", unit_); ("build", build);
        ("test:unit:fast", fast)]
     = ["test:**"].
Proof. split; reflexivity. Qed.

Lemma index_main_empty_mapping (opts : options) :
  IndexJs.main (Some []) (Some opts)
  = IndexJs.Returns_archy []
      {| root_label := "0 scripts"; root_nodes := [] |}.
Proof. destruct opts as [[|] [|] [|] [|]]; reflexivity. Qed.

Lemma index_main_no_mapping (opts : option options) :
  IndexJs.main None opts
  = IndexJs.Throws "No package.json or no scripts key in this dir".
Proof. reflexivity. Qed.

Section Passes.
Variable scripts : Obj.t string.

Local Abbreviation pass1 := (IndexJs.getDetailedScripts scripts).
Local Abbreviation pass2 := (IndexJs.attachNodes pass1).

Lemma index_pass2_In (k : string) (e : IndexJs.node) :
  In (k, e) pass2 ->
  exists c, In (k, c) scripts
    /\ e = IndexJs.attached pass1 k (IndexJs.detailed scripts k c).
Proof.
  intros H. apply (reduce_set_In (IndexJs.attached pass1) pass1) in H.
  destruct H as [s [Hs ->]].
  apply (reduce_set_In (IndexJs.detailed scripts) scripts) in Hs.
  destruct Hs as [c [Hc ->]]. exists c. split; [exact Hc | reflexivity].
Qed.

(** What [scripts[n]] gives on the entries of the first pass. *)
Lemma index_node_of_pass1 (n : string) :
  IndexJs.node_of pass1 n
  = match Obj.get scripts n with
    | Some _ => IndexJs.entry n
    | None =>
        if includes OBJECT_PROTOTYPE n then IndexJs.inherited_value n
        else IndexJs.undefined
    end.
Proof.
  unfold IndexJs.node_of, read.
  destruct (Obj.get scripts n) as [c |] eqn:E.
  - apply get_Some_keys in E.
    destruct (reduce_set_get (IndexJs.detailed scripts) scripts n E)
      as [a [_ E1]].
    unfold IndexJs.getDetailedScripts. rewrite E1. reflexivity.
  - apply get_None_keys in E.
    assert (E1 : Obj.get pass1 n = None).
    { apply get_None_keys. intros H. apply E.
      apply (reduce_set_keys (IndexJs.detailed scripts) scripts). exact H. }
    rewrite E1. destruct (includes OBJECT_PROTOTYPE n); reflexivity.
Qed.

Lemma index_node_of_key (k : string) :
  In k (Obj.keys scripts) -> IndexJs.node_of pass1 k = IndexJs.entry k.
Proof.
  intros Hk. rewrite index_node_of_pass1.
  destruct (In_keys_get scripts k Hk) as [c ->]. reflexivity.
Qed.

Lemma index_node_of_entry (n k : string) :
  IndexJs.node_of pass1 n = IndexJs.entry k -> n = k.
Proof.
  rewrite index_node_of_pass1. destruct (Obj.get scripts n).
  - intros [= ->]. reflexivity.
  - destruct (includes OBJECT_PROTOTYPE n); discriminate.
Qed.

(** The hooks of [attachNodes] sit first and last, under the same test
    of their commands. *)
Lemma index_hooks_first_and_last (name : string) (e : IndexJs.node) :
  Obj.get pass2 name = Some e ->
  (truthy (Obj.get scripts (PRE ++ name)) = true ->
   hd_error (IndexJs.nodes e) = Some (IndexJs.entry (PRE ++ name)))
  /\ (truthy (Obj.get scripts (POST ++ name)) = true ->
      last (IndexJs.nodes e) IndexJs.undefined = IndexJs.entry (POST ++ name)).
Proof.
  intros He. apply get_Some_In, index_pass2_In in He.
  destruct He as [c [_ ->]].
  cbn [IndexJs.nodes IndexJs.base IndexJs.attached IndexJs.detailed
       IndexJs.pre IndexJs.post].
  split; intros Ht; rewrite Ht; apply truthy_keys in Ht;
    rewrite (index_node_of_key _ Ht); [apply hd_push_if | apply last_last].
Qed.

Lemma index_empty_command_is_no_script (k name : string) (e : IndexJs.node) :
  Obj.get scripts k = Some "" ->
  Obj.get pass2 name = Some e ->
  ~ In k (IndexJs.nodesNames (IndexJs.base e))
  /\ ~ In (IndexJs.entry k) (IndexJs.nodes e).
Proof.
  intros Hk He.
  assert (Hf : truthy (Obj.get scripts k) = false) by (rewrite Hk; reflexivity).
  assert (Hsub : forall n, ~ In k (IndexJs.getNodesNames n scripts)).
  { intros n Hn. apply index_In_getNodesNames in Hn.
    unfold read in Hn. rewrite Hk in Hn. discriminate Hn. }
  apply get_Some_In, index_pass2_In in He. destruct He as [c [_ ->]].
  cbn [IndexJs.nodes IndexJs.nodesNames IndexJs.base IndexJs.attached
       IndexJs.detailed IndexJs.pre IndexJs.post].
  split; [apply Hsub |].
  intros Hr. apply In_push_if in Hr. destruct Hr as [Hr | [Ht E]].
  - apply In_unshift_if in Hr. destruct Hr as [[Ht E] | Hr].
    + symmetry in E. apply index_node_of_entry in E. rewrite E in Ht.
      congruence.
    + apply in_map_iff in Hr. destruct Hr as [n [E Hn]].
      apply index_node_of_entry in E. subst n. exact (Hsub name Hn).
  - symmetry in E. apply index_node_of_entry in E. rewrite E in Ht.
    congruence.
Qed.

End Passes.

End IndexJsFacts.

(** ** The renderer *)

Module RenderFacts.
Import JS.
Import Resolver.
Import ObjFacts.
Import JSFacts.
Import ResolverFacts.

Lemma all_rendered_ext {N} (f g : N -> rendering) (l : list N) :
  (forall r, In r l -> f r = g r) -> all_rendered f l = all_rendered g l.
Proof.
  induction l as [| r l IH]; simpl; intros H; [reflexivity |].
  rewrite (H r (or_introl eq_refl)). destruct (g r); try reflexivity.
  apply IH. intros r' Hr'. apply H. right. exact Hr'.
Qed.

Lemma all_rendered_defined {N} (f : N -> rendering) (l : list N) :
  (forall r, In r l -> f r <> not_an_object) ->
  all_rendered f l <> not_an_object.
Proof.
  induction l as [| r l IH]; simpl; intros H; [discriminate |].
  pose proof (H r (or_introl eq_refl)) as Hr.
  destruct (f r); [| discriminate | congruence].
  apply IH. intros r' Hr'. apply H. right. exact Hr'.
Qed.


(** The bound of [render] is exact: the walk is inside of every key at
    most once, so a depth of the number of keys is never used up. *)
Lemma render_fuel (entries : Obj.t node) (fuel fuel' : nat)
    (path : list string) (r : option string) :
  NoDup path -> incl path (Obj.keys entries) ->
  List.length (Obj.keys entries) <= fuel + List.length path ->
  List.length (Obj.keys entries) <= fuel' + List.length path ->
  render entries fuel path r = render entries fuel' path r.
Proof.
  revert fuel' path r.
  induction fuel as [| fuel IH]; intros fuel' path r Hnd Hincl H1 H2.
  - destruct r as [k |]; [| destruct fuel'; reflexivity].
    destruct fuel' as [| fuel']; [reflexivity |]. simpl.
    destruct (Obj.get entries k) as [e |] eqn:E; [| reflexivity].
    destruct (includes path k) eqn:Ei; [reflexivity |].
    exfalso. apply get_Some_keys in E.
    assert (Hk : ~ In k path).
    { intros H. apply includes_In in H. congruence. }
    assert (Hlen : List.length (k :: path) <= List.length (Obj.keys entries)).
    { apply NoDup_incl_length; [constructor; assumption |].
      intros x [<- | Hx]; [exact E | exact (Hincl x Hx)]. }
    simpl in Hlen, H1. lia.
  - destruct r as [k |]; [| destruct fuel'; reflexivity].
    simpl. destruct (Obj.get entries k) as [e |] eqn:E;
      [| destruct fuel'; simpl; rewrite E; reflexivity].
    assert (Hkeys : In k (Obj.keys entries)) by exact (get_Some_keys _ _ _ E).
    destruct (includes path k) eqn:Ei;
      [destruct fuel'; simpl; rewrite E, Ei; reflexivity |].
    assert (Hk : ~ In k path).
    { intros H. apply includes_In in H. congruence. }
    assert (Hnd' : NoDup (k :: path)) by (constructor; assumption).
    assert (Hincl' : incl (k :: path) (Obj.keys entries)).
    { intros x [<- | Hx]; [exact Hkeys | exact (Hincl x Hx)]. }
    destruct fuel' as [| fuel'].
    + exfalso. pose proof (NoDup_incl_length Hnd' Hincl') as Hlen.
      simpl in Hlen, H2. lia.
    + simpl. rewrite E, Ei. apply all_rendered_ext. intros r' _.
      apply IH; [exact Hnd' | exact Hincl' | simpl; lia | simpl; lia].
Qed.

Lemma In_insert_sorted (x y : string) (l : list string) :
  In y (insert_sorted x l) -> y = x \/ In y l.
Proof.
  induction l as [| z l IH]; simpl.
  - intros [<- | []]. left. reflexivity.
  - destruct (String.leb x z); simpl.
    + intros [<- | H]; [left; reflexivity | right; exact H].
    + intros [<- | H]; [right; left; reflexivity |].
      destruct (IH H) as [-> | H']; [left; reflexivity | right; right; exact H'].
Qed.

Lemma In_sort (y : string) (l : list string) : In y (sort l) -> In y l.
Proof.
  unfold sort. induction l as [| x l IH]; simpl; [tauto |].
  intros H. apply In_insert_sorted in H.
  destruct H as [-> | H]; [left; reflexivity | right; exact (IH H)].
Qed.



Section Resolved.
Variable minimatch : string -> string -> bool.
Variable scripts : Obj.t string.

Local Abbreviation entries := (resolve minimatch scripts).

(** Every node of an entry is a reference to the entry of a script. *)
Lemma resolve_nodes_defined (k : string) (e : node) (r : option string) :
  Obj.get entries k = Some e -> In r (nodes e) ->
  exists n, r = Some n /\ In n (Obj.keys scripts).
Proof.
  intros He Hr. apply get_Some_In, pass2_In in He.
  destruct He as [c [Hc ->]]. cbn [nodes subNames base attached detailed] in Hr.
  apply In_push_if in Hr. destruct Hr as [Hr | [Ht ->]].
  - apply In_unshift_if in Hr. destruct Hr as [[Ht ->] | Hr].
    + apply truthy_keys in Ht. exists (PRE ++ k)%string.
      split; [apply ref_pass1; exact Ht | exact Ht].
    + apply in_map_iff in Hr. destruct Hr as [n [<- Hn]].
      apply In_getSubNames in Hn. destruct Hn as [Hn _].
      exists n. split; [apply ref_pass1; exact Hn | exact Hn].
  - apply truthy_keys in Ht. exists (POST ++ k)%string.
    split; [apply ref_pass1; exact Ht | exact Ht].
Qed.

(** The renderer never meets an undefined node below a script. *)
Lemma render_defined (fuel : nat) (path : list string) (k : string) :
  In k (Obj.keys scripts) ->
  render entries fuel path (Some k) <> not_an_object.
Proof.
  revert path k. induction fuel as [| fuel IH]; intros path k Hk.
  - simpl. apply (proj2 (pass2_keys minimatch scripts k)), In_keys_get in Hk. destruct Hk as [e ->].
    destruct (includes path k); discriminate.
  - simpl. apply (proj2 (pass2_keys minimatch scripts k)), In_keys_get in Hk. destruct Hk as [e E].
    rewrite E. destruct (includes path k); [discriminate |].
    apply all_rendered_defined. intros r Hr.
    destruct (resolve_nodes_defined k e r E Hr) as [n [-> Hn]].
    apply IH. exact Hn.
Qed.


(** The entries [main] shows at the root, and their order. *)
Lemma root_keys (shown : Obj.t node) (alpha : bool) (r : option string) :
  (forall k, In k (Obj.keys shown) -> In k (Obj.keys scripts)) ->
  In r (root_nodes (archify shown alpha)) ->
  exists k, r = Some k /\ In k (Obj.keys shown).
Proof.
  intros Hsub Hr. cbn [archify root_nodes] in Hr.
  apply in_map_iff in Hr. destruct Hr as [k [<- Hk]].
  assert (Hk' : In k (Obj.keys shown)).
  { destruct alpha; [apply In_sort; exact Hk | exact Hk]. }
  exists k. split; [| exact Hk'].
  unfold ref. destruct (In_keys_get shown k Hk') as [v ->]. reflexivity.
Qed.

Lemma pruned_keys (k : string) :
  In k (Obj.keys (prune entries)) -> In k (Obj.keys scripts).
Proof.
  unfold prune, reduce.
  rewrite (keys_fold (fun kv => kept (snd kv)) (fun _ (s : node) => s)
             (fun all kv => if kept (snd kv) then Obj.set all (fst kv) (snd kv)
                            else all)
             (fun _ _ => eq_refl)).
  unfold Obj.keys. rewrite in_map_iff. intros [[k' e] [<- H]].
  apply filter_In in H. destruct H as [H _]. cbn [fst].
  apply (proj1 (pass2_keys minimatch scripts k')).
  apply (in_map fst) in H. exact H.
Qed.

(** With a script map, [main] returns or the renderer overflows. *)
Lemma main_outcome (opts : option options) :
  main minimatch (Some scripts) opts = Throws_RangeError
  \/ exists tree,
       main minimatch (Some scripts) opts = Returns_archy entries tree.
Proof.
  unfold main.
  set (o := match opts with Some o => o | None => no_options end).
  set (shown := if opt_p o || opt_prune o then prune entries else entries).
  destruct (archy entries (archify shown (opt_a o || opt_alpha o))) eqn:E.
  - right. eexists. reflexivity.
  - left. reflexivity.
  - exfalso. revert E. unfold archy. apply all_rendered_defined.
    intros r Hr.
    assert (Hsub : forall k, In k (Obj.keys shown) -> In k (Obj.keys scripts)).
    { intros k. unfold shown. destruct (opt_p o || opt_prune o);
        [apply pruned_keys | apply (proj1 (pass2_keys minimatch scripts k))]. }
    destruct (root_keys shown _ r Hsub Hr) as [k [-> Hk]].
    apply render_defined. exact (Hsub k Hk).
Qed.

End Resolved.

End RenderFacts.

(** * The specification, claim by claim *)

Import JS.
Import Resolver.
Import ObjFacts.
Import JSFacts.
Import ResolverFacts.
Import RenderFacts.

(** ** Entry point *)

(** C1, at the input [main({}, {})]: the call does not fail, it returns the
    rendering of a root labelled "0 scripts" without nodes. *)
Lemma main_empty_mapping_returns :
  main Minimatch.minimatch (Some []) (Some no_options)
  = Returns_archy [] {| root_label := "0 scripts"; root_nodes := [] |}
  /\ forall message,
       main Minimatch.minimatch (Some []) (Some no_options) <> Throws message.
Proof.
  split; [reflexivity | intros message; discriminate].
Qed.

(** C1, as amended: [main] fails with the configuration error when the
    script mapping is absent; with the empty mapping it does not fail, it
    returns the rendering of the root "0 scripts" without nodes, whatever
    flags the options set. *)
Theorem main_configuration_error
    (minimatch : string -> string -> bool) (opts : option options) :
  main minimatch None opts
  = Throws "No package.json or no scripts key in this dir"
  /\ main minimatch (Some []) opts
     = Returns_archy [] {| root_label := "0 scripts"; root_nodes := [] |}.
Proof.
  split; [reflexivity |].
  destruct opts as [[[|] [|] [|] [|]] |]; reflexivity.
Qed.

(** ** Child names *)

(** C2, at a failing input: the command of [test] names [test:lint] and the
    wildcard [test:*]; the expansion brings [test:lint] a second time and
    nothing removes it. *)
Theorem getSubNames_repeats_expanded_name :
  getSubNames Minimatch.minimatch "test"
    [("test", "npm-run-all test:lint test:*");
     ("test:lint", "eslint .");
     ("test:unit", "mocha")]
  = ["test:lint"; "test:lint"; "test:unit"]
  /\ ~ NoDup
       (getSubNames Minimatch.minimatch "test"
          [("test", "npm-run-all test:lint test:*");
           ("test:lint", "eslint .");
           ("test:unit", "mocha")]).
Proof.
  assert (E : getSubNames Minimatch.minimatch "test"
                [("test", "npm-run-all test:lint test:*");
                 ("test:lint", "eslint .");
                 ("test:unit", "mocha")]
              = ["test:lint"; "test:lint"; "test:unit"])
    by (vm_compute; reflexivity).
  split; [exact E |]. rewrite E. intros H.
  inversion H as [| x l Hnot _]; subst. apply Hnot. left. reflexivity.
Qed.

(** C3: with the scripts [test:lint], [test:unit] and [build], whatever
    their commands, the name [test:*] expands to [test:lint; test:unit] in
    the order of the keys; with the script [test:unit:fast] added, [test:**]
    expands to a list that has [test:unit:fast] too. *)
Theorem expandWildcard_examples (lint unit_ build fast : string) :
  expandWildcard Minimatch.minimatch "test:*"
    [("test:lint", lint); ("test:unit", unit_); ("build", build)]
  = ["test:lint"; "test:unit"]
  /\ expandWildcard Minimatch.minimatch "test:**"
       [("test:lint", lint); ("test:unit", unit_); ("build", build);
        ("test:unit:fast", fast)]
     = ["test:lint"; "test:unit"; "test:unit:fast"]
  /\ In "test:unit:fast"
       (expandWildcard Minimatch.minimatch "test:**"
          [("test:lint", lint); ("test:unit", unit_); ("build", build);
           ("test:unit:fast", fast)]).
Proof.
  split; [reflexivity |]. split; [reflexivity |].
  right. right. left. reflexivity.
Qed.

(** ** Lifecycle scripts *)

(** C4, at three inputs.  The suffix [build] is a key of the map, but its
    command is empty: [prebuild] is not classified.  The map has a script
    with the empty name: the bare prefix [pre] is classified.  And the
    suffix [constructor] is neither a key nor a built-in, but a property
    that every object inherits: [preconstructor] is classified. *)
Lemma isLifeCycleScript_tests_the_command :
  ~ (isLifeCycleScript PRE "prebuild" [("build", ""); ("prebuild", "tsc")] = true
     <-> exists root,
           "prebuild" = (PRE ++ root)%string
           /\ (In root (Obj.keys [("build", ""); ("prebuild", "tsc")])
               \/ In root BUILTINS))
  /\ isLifeCycleScript PRE "pre" [("", "echo"); ("pre", "tsc")] = true
  /\ (isLifeCycleScript PRE "preconstructor" [("preconstructor", "tsc")] = true
      /\ ~ In "constructor" (Obj.keys [("preconstructor", "tsc")])
      /\ ~ In "constructor" BUILTINS).
Proof.
  split; [| split; [reflexivity |]].
  - intros [_ H].
    assert (E : isLifeCycleScript PRE "prebuild"
                  [("build", ""); ("prebuild", "tsc")] = true).
    { apply H. exists "build". split; [reflexivity |]. left. left. reflexivity. }
    vm_compute in E. discriminate.
  - split; [reflexivity |]. split; simpl; intuition discriminate.
Qed.

(** C4, as amended: for the prefixes [pre] and [post], and for a name
    whose suffix is not one of the names that every object inherits unless
    it is a key of the map, the name is a lifecycle script exactly when it
    starts with the prefix and the rest is a script with a non-empty
    command or a built-in; the bare prefix is one only when the map has a
    script with the empty name and a non-empty command. *)
Theorem isLifeCycleScript_spec
    (prefix name : string) (scripts : Obj.t string) :
  prefix = PRE \/ prefix = POST ->
  ((forall root,
      name = (prefix ++ root)%string ->
      In root OBJECT_PROTOTYPE -> In root (Obj.keys scripts)) ->
   (isLifeCycleScript prefix name scripts = true
    <-> exists root,
          name = (prefix ++ root)%string
          /\ ((exists command,
                 Obj.get scripts root = Some command /\ command <> "")
              \/ In root BUILTINS)))
  /\ (isLifeCycleScript prefix prefix scripts = true
      <-> exists command, Obj.get scripts "" = Some command /\ command <> "").
Proof.
  intros Hprefix.
  assert (Hgen : forall n,
    isLifeCycleScript prefix n scripts = true
    <-> exists root,
          n = (prefix ++ root)%string
          /\ (((exists command,
                  Obj.get scripts root = Some command /\ command <> "")
               \/ (Obj.get scripts root = None /\ In root OBJECT_PROTOTYPE))
              \/ In root BUILTINS)).
  { intros n. unfold isLifeCycleScript.
    rewrite test_match_anchored, andb_true_iff, orb_true_iff,
      prefix_append, truthy_property_iff, includes_In.
    split.
    - intros [[root ->] H]. exists root. rewrite slice_append in H.
      split; [reflexivity | exact H].
    - intros [root [-> H]]. rewrite slice_append.
      split; [exists root; reflexivity | exact H]. }
  assert (Hbare : forall root, prefix = (prefix ++ root)%string -> root = "").
  { intros root E.
    destruct Hprefix as [-> | ->]; simpl in E; injection E as E;
      symmetry; exact E. }
  split.
  - intros Hown. rewrite Hgen. split.
    + intros [root [E [[H | [Hnone Hin]] | H]]]; exists root.
      * split; [exact E | left; exact H].
      * exfalso. apply (get_None_keys scripts root); [exact Hnone |].
        exact (Hown root E Hin).
      * split; [exact E | right; exact H].
    + intros [root [E [H | H]]]; exists root.
      * split; [exact E | left; left; exact H].
      * split; [exact E | right; exact H].
  - rewrite Hgen. split.
    + intros [root [E H]]. rewrite (Hbare root E) in H.
      destruct H as [[H | [_ H]] | H]; [exact H | |];
        exfalso; simpl in H; intuition discriminate.
    + intros H. exists "". split; [| left; left; exact H].
      destruct Hprefix as [-> | ->]; reflexivity.
Qed.

(** The amended C4 at [prebuild], with the script [build]. *)
Lemma isLifeCycleScript_spec_witness :
  (PRE = PRE \/ PRE = POST)
  /\ (forall root,
        "prebuild" = (PRE ++ root)%string ->
        In root OBJECT_PROTOTYPE -> In root (Obj.keys [("build", "tsc")]))
  /\ (isLifeCycleScript PRE "prebuild" [("build", "tsc")] = true
      <-> exists root,
            "prebuild" = (PRE ++ root)%string
            /\ ((exists command,
                   Obj.get [("build", "tsc")] root = Some command
                   /\ command <> "")
                \/ In root BUILTINS)).
Proof.
  assert (H1 : PRE = PRE \/ PRE = POST) by (left; reflexivity).
  assert (H2 : forall root,
             "prebuild" = (PRE ++ root)%string ->
             In root OBJECT_PROTOTYPE -> In root (Obj.keys [("build", "tsc")])).
  { intros root E _. simpl in E. injection E as <-. left. reflexivity. }
  split; [exact H1 |]. split; [exact H2 |].
  exact (proj1 (isLifeCycleScript_spec PRE "prebuild" [("build", "tsc")] H1) H2).
Defined.

(** ** Extraction *)

(** C6: the direct invocations of ["npm run build && npm run test"] are
    [build] and [test], in that order; a name invoked again is not listed
    again, and no result of the extractor has a repeated name. *)
Theorem getRunScripts_example :
  getRunScripts "npm run build && npm run test" = [Some "build"; Some "test"]
  /\ getRunScripts "npm run build && npm run test && npm run build"
     = [Some "build"; Some "test"]
  /\ forall cmd, NoDup (getRunScripts cmd).
Proof.
  split; [vm_compute; reflexivity |].
  split; [vm_compute; reflexivity | exact NoDup_getRunScripts].
Qed.

(** C7, at a failing input: on the command of the claim the flag that
    follows the keyword is left out, but in
    ["npm-run-all clean -s build"] the flag follows a name and is
    returned as a name. *)
Theorem getRunAllScripts_flag_in_result :
  getRunAllScripts "npm-run-all -s clean build" = ["clean"; "build"]
  /\ getRunAllScripts "npm-run-all clean -s build" = ["clean"; "-s"; "build"]
  /\ In "-s" (getRunAllScripts "npm-run-all clean -s build").
Proof.
  assert (E : getRunAllScripts "npm-run-all clean -s build"
              = ["clean"; "-s"; "build"]) by (vm_compute; reflexivity).
  split; [vm_compute; reflexivity |]. split; [exact E |].
  rewrite E. right. left. reflexivity.
Qed.

(** ** Children exist *)



(** ** Hooks *)

(** C8, at an input where [build] and [prebuild] are both scripts: the
    command of [prebuild] is empty and the node list of [build] is empty,
    so its first element is not the entry of [prebuild]. *)
Lemma hook_with_empty_command_not_attached :
  In "build" (Obj.keys [("build", "tsc"); ("prebuild", "")])
  /\ In "prebuild" (Obj.keys [("build", "tsc"); ("prebuild", "")])
  /\ option_map nodes
       (Obj.get (resolve Minimatch.minimatch [("build", "tsc"); ("prebuild", "")])
          "build")
     = Some [].
Proof.
  split; [left; reflexivity |]. split; [right; left; reflexivity |].
  vm_compute. reflexivity.
Qed.

(** C8, as amended: for a script [name] (for instance [build]), when
    [pre<name>] is a script with a non-empty command, the first node of
    [name] is the entry of [pre<name>]; when [post<name>] is a script with
    a non-empty command, the last node of [name] is the entry of
    [post<name>]; both whatever the extracted names are. *)
Theorem hooks_first_and_last
    (minimatch : string -> string -> bool) (scripts : Obj.t string)
    (name : string) :
  In name (Obj.keys scripts) ->
  exists e,
    Obj.get (resolve minimatch scripts) name = Some e
    /\ (truthy (Obj.get scripts (PRE ++ name)) = true ->
        hd_error (nodes e) = Some (ref (resolve minimatch scripts) (PRE ++ name))
        /\ ref (resolve minimatch scripts) (PRE ++ name)
           = Some (PRE ++ name)%string)
    /\ (truthy (Obj.get scripts (POST ++ name)) = true ->
        last (nodes e) None = ref (resolve minimatch scripts) (POST ++ name)
        /\ ref (resolve minimatch scripts) (POST ++ name)
           = Some (POST ++ name)%string).
Proof.
  intros Hname. destruct (pass2_get minimatch scripts name Hname)
    as [c [e [_ [He ->]]]].
  eexists. split; [exact He |].
  cbn [nodes base attached detailed pre post]. split.
  - intros Ht. rewrite Ht. apply truthy_keys in Ht.
    rewrite (ref_pass2 minimatch scripts _ Ht),
      (ref_pass1 minimatch scripts _ Ht).
    split; [apply hd_push_if | reflexivity].
  - intros Ht. rewrite Ht. apply truthy_keys in Ht.
    rewrite (ref_pass2 minimatch scripts _ Ht),
      (ref_pass1 minimatch scripts _ Ht).
    split; [apply last_last | reflexivity].
Qed.

(** The amended C8 at a [build] whose command invokes [postbuild] before
    [prebuild]. *)
Lemma hooks_first_and_last_witness :
  In "build" (Obj.keys [("build", "npm run postbuild && npm run prebuild");
                        ("postbuild", "echo done"); ("prebuild", "rimraf dist")])
  /\ exists e,
       Obj.get (resolve Minimatch.minimatch
                  [("build", "npm run postbuild && npm run prebuild");
                   ("postbuild", "echo done"); ("prebuild", "rimraf dist")])
         "build" = Some e
       /\ hd_error (nodes e) = Some (Some "prebuild")
       /\ last (nodes e) None = Some "postbuild".
Proof.
  assert (Hk : In "build"
                 (Obj.keys [("build", "npm run postbuild && npm run prebuild");
                            ("postbuild", "echo done");
                            ("prebuild", "rimraf dist")]))
    by (left; reflexivity).
  split; [exact Hk |].
  destruct (hooks_first_and_last Minimatch.minimatch _ "build" Hk)
    as [e [He [Hpre Hpost]]].
  exists e. split; [exact He |].
  destruct (Hpre eq_refl) as [H1 H2]. destruct (Hpost eq_refl) as [H3 H4].
  split.
  - rewrite H1, H2. reflexivity.
  - rewrite H3, H4. reflexivity.
Defined.

(** ** Pruning *)

Lemma prune_wf_kept (scripts : Obj.t node) :
  Obj.wf (prune scripts)
  /\ Forall (fun kv => kept (snd kv) = true) (prune scripts).
Proof.
  unfold prune, reduce.
  apply (fold_invariant (fun kv => kept (snd kv)) (fun _ s => s)
           (fun all kv => if kept (snd kv) then Obj.set all (fst kv) (snd kv)
                          else all)
           (fun _ _ => eq_refl)
           (fun _ s => kept s = true)).
  - intros k a _ H. exact H.
  - split; constructor.
Qed.

Lemma prune_fixed (scripts : Obj.t node) :
  Obj.wf scripts -> Forall (fun kv => kept (snd kv) = true) scripts ->
  prune scripts = scripts.
Proof.
  intros Hwf Hall. unfold prune, reduce.
  rewrite (fold_wf (fun kv => kept (snd kv)) (fun _ s => s)
             (fun all kv => if kept (snd kv) then Obj.set all (fst kv) (snd kv)
                            else all)
             (fun _ _ => eq_refl)) by exact Hwf.
  simpl. induction Hall as [| [k s] l Hs Hall IH]; simpl.
  - reflexivity.
  - simpl in Hs. rewrite Hs. simpl. f_equal. apply IH.
    inversion Hwf; assumption.
Qed.

(** C9: pruning a pruned entry map changes nothing. *)
Theorem prune_idempotent (scripts : Obj.t node) :
  prune (prune scripts) = prune scripts.
Proof.
  destruct (prune_wf_kept scripts) as [Hwf Hall].
  exact (prune_fixed _ Hwf Hall).
Qed.

(** ** Existence is truthiness *)

(** C10: a script whose command is the empty string is a key of the map,
    yet it is in no entry's child names and in no entry's nodes: it is
    dropped from the children of the others, and when it is named
    [pre<name>] or [post<name>] it is not attached to the nodes of
    [name]. *)
Theorem empty_command_is_no_script
    (minimatch : string -> string -> bool) (scripts : Obj.t string)
    (k : string) :
  Obj.get scripts k = Some "" ->
  In k (Obj.keys scripts)
  /\ (forall name, ~ In k (getSubNames minimatch name scripts))
  /\ (forall name e,
        Obj.get (resolve minimatch scripts) name = Some e ->
        ~ In k (subNames e) /\ ~ In (Some k) (nodes e)).
Proof.
  intros Hk.
  assert (Hf : truthy (Obj.get scripts k) = false) by (rewrite Hk; reflexivity).
  assert (Hsub : forall name, ~ In k (getSubNames minimatch name scripts)).
  { intros name Hn. apply In_getSubNames in Hn. destruct Hn as [_ Hn].
    congruence. }
  split; [exact (get_Some_keys _ _ _ Hk) |]. split; [exact Hsub |].
  intros name e He. apply get_Some_In, pass2_In in He.
  destruct He as [c [Hc ->]]. cbn [nodes subNames base attached detailed pre post].
  split; [apply Hsub |].
  intros Hr. apply In_push_if in Hr. destruct Hr as [Hr | [Ht E]].
  - apply In_unshift_if in Hr. destruct Hr as [[Ht E] | Hr].
    + symmetry in E. apply ref_Some in E. rewrite E in Ht. congruence.
    + apply In_map_ref in Hr. exact (Hsub name Hr).
  - symmetry in E. apply ref_Some in E. rewrite E in Ht. congruence.
Qed.

(** C10 at a map where [clean] and [prebuild] have empty commands. *)
Lemma empty_command_is_no_script_witness :
  Obj.get [("build", "npm run clean && tsc"); ("clean", ""); ("prebuild", "")]
    "prebuild" = Some ""
  /\ (forall e,
        Obj.get (resolve Minimatch.minimatch
                   [("build", "npm run clean && tsc"); ("clean", "");
                    ("prebuild", "")]) "build" = Some e ->
        ~ In (Some "prebuild") (nodes e))
  /\ ~ In "clean"
        (getSubNames Minimatch.minimatch "build"
           [("build", "npm run clean && tsc"); ("clean", ""); ("prebuild", "")]).
Proof.
  split; [reflexivity |]. split.
  - intros e He.
    exact (proj2 (proj2 (proj2
             (empty_command_is_no_script Minimatch.minimatch
                [("build", "npm run clean && tsc"); ("clean", "");
                 ("prebuild", "")] "prebuild" eq_refl)) "build" e He)).
  - exact (proj1 (proj2
             (empty_command_is_no_script Minimatch.minimatch
                [("build", "npm run clean && tsc"); ("clean", "");
                 ("prebuild", "")] "clean" eq_refl)) "build").
Defined.
(** * Further properties *)

(** ** What an expression consumes and captures *)

Module CaptureFacts.
Import JS.
Import Resolver.
Import ObjFacts.
Import JSFacts.
Import ResolverFacts.

Lemma every_append (test : ascii -> bool) (p q : string) :
  every test (p ++ q) = every test p && every test q.
Proof.
  induction p as [| b p IH]; simpl; [reflexivity |].
  rewrite IH, andb_assoc. reflexivity.
Qed.

Lemma every_weaken (test1 test2 : ascii -> bool) (s : string) :
  (forall b, test1 b = true -> test2 b = true) ->
  every test1 s = true -> every test2 s = true.
Proof.
  intros Ht. induction s as [| b s IH]; simpl; [reflexivity |].
  rewrite !andb_true_iff. intros [H1 H2]. split; [apply Ht; exact H1 | exact (IH H2)].
Qed.

Lemma length_append (p q : string) :
  String.length (p ++ q) = String.length p + String.length q.
Proof. induction p as [| b p IH]; simpl; [reflexivity | rewrite IH; reflexivity]. Qed.

Lemma take_append (p s : string) : take (String.length p) (p ++ s) = p.
Proof. induction p as [| b p IH]; simpl; [destruct s; reflexivity | rewrite IH; reflexivity]. Qed.

Lemma append_assoc (p q r : string) : ((p ++ q) ++ r = p ++ (q ++ r))%string.
Proof. induction p as [| b p IH]; simpl; [reflexivity | rewrite IH; reflexivity]. Qed.

Section Consumes.
Variable icase : bool.
Variable input_len : nat.
Context {R : Type}.
Variable P : ascii -> bool.

Lemma step_consumes (test : ascii -> bool) :
  (forall b, test b = true -> P b = true) -> consumes (R := R) P (step test).
Proof.
  intros Ht s c k x H. destruct s as [| b s]; simpl in H; [discriminate |].
  destruct (test b) eqn:Eb; [| discriminate].
  exists (String b EmptyString), s, c. split; [reflexivity |].
  split; [simpl; rewrite (Ht b Eb); reflexivity | exact H].
Qed.

Lemma seq_consumes (r1 r2 : regex) :
  consumes (R := R) P (rmatch icase input_len r1) ->
  consumes (R := R) P (rmatch icase input_len r2) ->
  consumes (R := R) P (rmatch icase input_len (Seq r1 r2)).
Proof.
  intros H1 H2 s c k x H. cbn [rmatch] in H.
  apply H1 in H. destruct H as [p1 [s1 [c1 [-> [Hp1 H]]]]].
  apply H2 in H. destruct H as [p2 [s2 [c2 [-> [Hp2 H]]]]].
  exists (p1 ++ p2)%string, s2, c2.
  split; [symmetry; apply append_assoc |].
  split; [rewrite every_append, Hp1, Hp2; reflexivity | exact H].
Qed.

Lemma star_loop_consumes (m : string -> caps -> @cont R -> option R)
    (gs : list nat) (n : nat) :
  consumes P m -> consumes P (star_loop m gs n).
Proof.
  intros Hm. induction n as [| n IH]; intros s c k x H; simpl in H.
  - exists EmptyString, s, c. split; [reflexivity | split; [reflexivity | exact H]].
  - destruct (m s (clear gs c) _) as [y |] eqn:E.
    + injection H as ->. apply Hm in E.
      destruct E as [p1 [s1 [c1 [-> [Hp1 E]]]]].
      destruct (Nat.ltb (String.length s1) (String.length (p1 ++ s1)));
        [| discriminate].
      apply IH in E. destruct E as [p2 [s2 [c2 [-> [Hp2 E]]]]].
      exists (p1 ++ p2)%string, s2, c2.
      split; [symmetry; apply append_assoc |].
      split; [rewrite every_append, Hp1, Hp2; reflexivity | exact E].
    + exists EmptyString, s, c.
      split; [reflexivity | split; [reflexivity | exact H]].
Qed.

Lemma star_consumes (r : regex) :
  consumes (R := R) P (rmatch icase input_len r) ->
  consumes (R := R) P (rmatch icase input_len (Star r)).
Proof.
  intros Hr s c k x H. cbn [rmatch] in H.
  exact (star_loop_consumes _ _ _ Hr _ _ _ _ H).
Qed.

Lemma plus_consumes (r : regex) :
  consumes (R := R) P (rmatch icase input_len r) ->
  consumes (R := R) P (rmatch icase input_len (Plus r)).
Proof.
  intros Hr s c k x H. rewrite rmatch_Plus in H.
  apply Hr in H. destruct H as [p1 [s1 [c1 [-> [Hp1 H]]]]].
  apply (star_loop_consumes _ _ _ Hr) in H.
  destruct H as [p2 [s2 [c2 [-> [Hp2 H]]]]].
  exists (p1 ++ p2)%string, s2, c2.
  split; [symmetry; apply append_assoc |].
  split; [rewrite every_append, Hp1, Hp2; reflexivity | exact H].
Qed.

Lemma cls_consumes (items : list class_item) :
  (forall b, existsb (fun it => item_match icase it b) items = true -> P b = true) ->
  consumes (R := R) P (rmatch icase input_len (Cls items)).
Proof. intros Ht. cbn [rmatch]. apply step_consumes. exact Ht. Qed.

(** [[...]+] consumes at least one character. *)
Lemma plus_cls_consumes (items : list class_item) :
  (forall b, existsb (fun it => item_match icase it b) items = true -> P b = true) ->
  forall s c (k : @cont R) x,
    rmatch icase input_len (Plus (Cls items)) s c k = Some x ->
    exists p s' c',
      s = (p ++ s')%string /\ (p <> EmptyString /\ every P p = true)
      /\ k s' c' = Some x.
Proof.
  intros Ht s c k x H. rewrite rmatch_Plus in H. cbn [rmatch] in H.
  destruct s as [| b s]; simpl in H; [discriminate |].
  destruct (existsb (fun it => item_match icase it b) items) eqn:Eb;
    [| discriminate].
  apply (star_loop_consumes _ _ _ (step_consumes _ Ht)) in H.
  destruct H as [p2 [s2 [c2 [-> [Hp2 H]]]]].
  exists (String b p2), s2, c2. split; [reflexivity |].
  split; [| exact H]. split; [discriminate |].
  simpl. rewrite (Ht b Eb), Hp2. reflexivity.
Qed.

(** A group captures what its expression consumes. *)
Lemma group_captures (i : nat) (r : regex) (good : string -> Prop) :
  (forall s c (k : @cont R) x,
     rmatch icase input_len r s c k = Some x ->
     exists p s' c', s = (p ++ s')%string /\ good p /\ k s' c' = Some x) ->
  forall s c (k : @cont R) x,
    rmatch icase input_len (Group i r) s c k = Some x ->
    exists p s' c',
      String.length s' <= String.length s /\ good p
      /\ k s' (set_cap i p c') = Some x.
Proof.
  intros Hr s c k x H. cbn [rmatch] in H. apply Hr in H.
  destruct H as [p [s' [c' [-> [Hp H]]]]].
  rewrite length_append in H.
  replace (String.length p + String.length s' - String.length s')
    with (String.length p) in H by lia.
  rewrite take_append in H.
  exists p, s', c'. split; [rewrite length_append; lia |].
  split; [exact Hp | exact H].
Qed.

End Consumes.

(** *** The extractor's expressions, with what the group holds *)

Section Captured.
Variable a : ascii.
Variables w x g : regex.
Variable re : RegExp.
Hypothesis re_shape :
  source re = Plus (Seq (Seq (Chr a) w) (Seq x (Group 1 g))).

Variable good : string -> Prop.
Hypothesis g_consumes :
  forall n s c (k : @cont (caps * nat)) r,
    rmatch (ignoreCase re) n g s c k = Some r ->
    exists p s' c', s = (p ++ s')%string /\ good p /\ k s' c' = Some r.

Local Abbreviation body := (Seq (Seq (Chr a) w) (Seq x (Group 1 g))).
Local Abbreviation holds := (fun c => exists v, cap c 1 = Some v /\ good v).

Lemma body_captures (n : nat) (s : string) (c : caps)
    (k : @cont (caps * nat)) (r : caps * nat) :
  rmatch (ignoreCase re) n body s c k = Some r ->
  exists s' c',
    String.length s' <= String.length s /\ holds c' /\ k s' c' = Some r.
Proof.
  intros H. cbn [rmatch] in H.
  apply step_calls in H. destruct H as [s1 [Hlen1 H]].
  apply rmatch_calls in H. destruct H as [s2 [c2 [Hlen2 [_ H]]]].
  apply rmatch_calls in H. destruct H as [s3 [c3 [Hlen3 [_ H]]]].
  apply (group_captures (ignoreCase re) n 1 g good (g_consumes n)) in H.
  destruct H as [p [s4 [c4 [Hlen4 [Hp H]]]]].
  eexists. eexists. split; [| split; [| exact H]].
  - lia.
  - exists p. split; [apply cap_set_cap | exact Hp].
Qed.

Lemma exec_captures (str : string) (i : nat) (c : caps) (e : nat) :
  exec re str i = Some (c, e) -> holds c.
Proof.
  unfold exec. destruct (Nat.ltb (String.length str) i); [discriminate |].
  generalize (S (String.length str - i)). intros n. revert i.
  induction n as [| n IH]; intros i H; simpl in H; [discriminate |].
  destruct (match_at re str i) as [[c0 e0] |] eqn:E; [| exact (IH _ H)].
  injection H as -> ->. unfold match_at in E.
  rewrite re_shape, rmatch_Plus in E.
  apply body_captures in E. destruct E as [s1 [c1 [_ [Hc1 E]]]].
  apply (star_loop_calls holds) in E.
  - destruct E as [s2 [c2 [_ [Hc2 E]]]]. injection E as <- _. exact Hc2.
  - intros s0 c0 k0 x0 H0. apply body_captures in H0. exact H0.
  - exact Hc1.
Qed.

Lemma getMatches_loop_captures (str : string) (fuel i : nat) :
  Forall (fun m => exists v, m_match m = Some v /\ good v)
    (getMatches_loop fuel re str i).
Proof.
  revert i. induction fuel as [| fuel IH]; intros i; simpl.
  - constructor.
  - destruct (exec re str i) as [[c e] |] eqn:E; [| constructor].
    apply exec_captures in E. constructor; [exact E | apply IH].
Qed.

End Captured.

End CaptureFacts.

(** ** The extracted names *)

Module ExtractFacts.
Import JS.
Import Resolver.
Import ObjFacts.
Import JSFacts.
Import ResolverFacts.
Import CaptureFacts.

Lemma name_class (b : ascii) :
  existsb (fun it => item_match true it b)
    [Range "a" "z"; Range "0" "9"; One "_"; One ":"; One "-"] = true ->
  is_word b || Ascii.eqb b ":" || Ascii.eqb b "-" = true.
Proof.
  destruct b as [[|] [|] [|] [|] [|] [|] [|] [|]]; vm_compute;
    intros H; first [reflexivity | discriminate H].
Qed.

Lemma index_name_class (b : ascii) :
  existsb (fun it => item_match true it b)
    [Range "a" "z"; Range "0" "9"; One "_"; One "-"] = true ->
  is_word b || Ascii.eqb b "-" = true.
Proof.
  destruct b as [[|] [|] [|] [|] [|] [|] [|] [|]]; vm_compute;
    intros H; first [reflexivity | discriminate H].
Qed.

Lemma names_class (b : ascii) :
  existsb (fun it => item_match true it b)
    [Range "a" "z"; Range "0" "9"; One "_"; One ":"; One "-"; One "*"] = true ->
  is_space b || is_word b || Ascii.eqb b ":" || Ascii.eqb b "-"
  || Ascii.eqb b "*" = true.
Proof.
  destruct b as [[|] [|] [|] [|] [|] [|] [|] [|]]; vm_compute;
    intros H; first [reflexivity | discriminate H].
Qed.

Lemma space_class (b : ascii) :
  is_space b = true ->
  is_space b || is_word b || Ascii.eqb b ":" || Ascii.eqb b "-"
  || Ascii.eqb b "*" = true.
Proof. intros ->. reflexivity. Qed.

Lemma In_getRunScripts_match (re : RegExp) (cmd : string) (v : option string) :
  In v (unique_values (map m_match (getMatches re cmd))) ->
  exists m, In m (getMatches re cmd) /\ m_match m = v.
Proof.
  unfold unique_values. rewrite (In_unique_from _ value_eqb_eq).
  intros [H _]. apply in_map_iff in H. destruct H as [m [E Hm]].
  exists m. split; [exact Hm | exact E].
Qed.

Lemma every_trim_start (test : ascii -> bool) (s : string) :
  every test s = true -> every test (trim_start s) = true.
Proof.
  induction s as [| b s IH]; simpl; [reflexivity |].
  intros H. destruct (is_space b); [| exact H].
  apply andb_true_iff in H. apply IH. tauto.
Qed.

Lemma every_trim_end (test : ascii -> bool) (s : string) :
  every test s = true -> every test (trim_end s) = true.
Proof.
  induction s as [| b s IH]; simpl; [reflexivity |].
  rewrite andb_true_iff. intros [Hb Hs]. specialize (IH Hs).
  destruct (trim_end s) as [| b' t].
  - destruct (is_space b); simpl; [reflexivity | rewrite Hb; reflexivity].
  - simpl in *. rewrite Hb. exact IH.
Qed.

Lemma every_trim (test : ascii -> bool) (s : string) :
  every test s = true -> every test (trim s) = true.
Proof. intros H. apply every_trim_end, every_trim_start. exact H. Qed.

(** The pieces of a split hold the characters of the string, the
    separator apart. *)
Lemma every_split_aux (test : ascii -> bool) (sep : ascii) (s cur : string) :
  every test s = true ->
  every (fun b => test b && negb (Ascii.eqb b sep)) cur = true ->
  Forall (fun t => every (fun b => test b && negb (Ascii.eqb b sep)) t = true)
    (split_aux sep cur s).
Proof.
  revert cur. induction s as [| b s IH]; simpl; intros cur Hs Hcur.
  - constructor; [exact Hcur | constructor].
  - apply andb_true_iff in Hs. destruct Hs as [Hb Hs].
    destruct (Ascii.eqb b sep) eqn:E.
    + constructor; [exact Hcur |]. apply IH; [exact Hs | reflexivity].
    + apply IH; [exact Hs |].
      rewrite every_append, Hcur. simpl. rewrite Hb, E. reflexivity.
Qed.

Lemma every_split (test : ascii -> bool) (sep : ascii) (s : string) :
  every test s = true ->
  Forall (fun t => every (fun b => test b && negb (Ascii.eqb b sep)) t = true)
    (split sep s).
Proof. intros H. apply every_split_aux; [exact H | reflexivity]. Qed.

Lemma no_colon (b : ascii) :
  is_word b || Ascii.eqb b "-" = true -> Ascii.eqb ":" b = false.
Proof.
  destruct b as [[|] [|] [|] [|] [|] [|] [|] [|]]; vm_compute;
    intros H; first [reflexivity | discriminate H].
Qed.

Lemma every_no_char (test : ascii -> bool) (c : ascii) (s : string) :
  (forall b, test b = true -> Ascii.eqb c b = false) ->
  every test s = true -> has_char c s = false.
Proof.
  intros Ht. induction s as [| b s IH]; simpl; [reflexivity |].
  rewrite andb_true_iff. intros [Hb Hs]. rewrite (Ht b Hb), (IH Hs). reflexivity.
Qed.

(** *** commands without the keyword *)

Lemma mentions_slice (w s : string) (i : nat) :
  mentions w s = false -> starts_with_ci w (slice i s) = false.
Proof.
  revert s. induction i as [| i IH]; intros s H.
  - destruct s; simpl in *; apply orb_false_iff in H; tauto.
  - destruct s as [| b s]; simpl in *; apply orb_false_iff in H.
    + tauto.
    + apply IH. tauto.
Qed.

Section Keyword.
Variables l r : regex.
Variable re : RegExp.
Hypothesis re_shape :
  source re = Plus (Seq (Seq (Chr "n") (Seq (Chr "p") (Seq (Chr "m") l))) r).
Hypothesis re_flag : ignoreCase re = true.

Lemma match_at_keyword (str : string) (i : nat) :
  starts_with_ci "npm" (slice i str) = false -> match_at re str i = None.
Proof.
  unfold match_at. rewrite re_shape, re_flag, rmatch_Plus.
  generalize (slice i str). intros s H. cbn [rmatch].
  destruct s as [| b1 s]; [reflexivity |]. cbn [step starts_with_ci] in *.
  destruct (chr_match true "n" b1); [| reflexivity].
  destruct s as [| b2 s]; [reflexivity |]. cbn [step starts_with_ci] in *.
  destruct (chr_match true "p" b2); [| reflexivity].
  destruct s as [| b3 s]; [reflexivity |]. cbn [step starts_with_ci] in *.
  destruct (chr_match true "m" b3); [| reflexivity].
  discriminate H.
Qed.

Lemma exec_keyword (str : string) (i : nat) :
  mentions "npm" str = false -> exec re str i = None.
Proof.
  intros H. unfold exec.
  destruct (Nat.ltb (String.length str) i); [reflexivity |].
  generalize (S (String.length str - i)). intros n. revert i.
  induction n as [| n IH]; intros i; simpl; [reflexivity |].
  rewrite match_at_keyword by (apply mentions_slice; exact H). apply IH.
Qed.

Lemma getMatches_keyword (str : string) :
  mentions "npm" str = false -> getMatches re str = [].
Proof.
  intros H. unfold getMatches. simpl. rewrite exec_keyword by exact H.
  reflexivity.
Qed.
End Keyword.

(** *** rounds of the loop *)

Section Rounds.
Variable a : ascii.
Variables w x g : regex.
Variable re : RegExp.
Hypothesis re_shape :
  source re = Plus (Seq (Seq (Chr a) w) (Seq x (Group 1 g))).

Lemma length_getMatches_loop (str : string) (fuel i : nat) :
  List.length (getMatches_loop fuel re str i) <= String.length str - i.
Proof.
  revert i. induction fuel as [| fuel IH]; intros i; simpl; [lia |].
  destruct (exec re str i) as [[c e] |] eqn:E; [| simpl; lia].
  apply (exec_extractor a w x g re re_shape) in E. destruct E as [He _].
  simpl. specialize (IH e). lia.
Qed.
End Rounds.

End ExtractFacts.

(** ** Entries *)

Module EntryFacts.
Import JS.
Import Resolver.
Import ObjFacts.
Import JSFacts.
Import ResolverFacts.

Lemma keys_map {A B} (g : string -> A -> B) (o : Obj.t A) :
  Obj.keys (map (fun kv => (fst kv, g (fst kv) (snd kv))) o) = Obj.keys o.
Proof.
  unfold Obj.keys. rewrite map_map. apply map_ext. reflexivity.
Qed.


Lemma map_ref_keys {A} (o : Obj.t A) (l : list string) :
  (forall n, In n l -> In n (Obj.keys o)) -> map (ref o) l = map Some l.
Proof.
  intros H. apply map_ext_in. intros n Hn. unfold ref.
  destruct (In_keys_get o n (H n Hn)) as [v ->]. reflexivity.
Qed.

Lemma unique_from_fixed {A} (eqb : A -> A -> bool)
    (eqb_eq : forall x y, eqb x y = true <-> x = y) (seen l : list A) :
  NoDup l -> (forall x, In x l -> ~ In x seen) -> unique_from eqb seen l = l.
Proof.
  revert seen. induction l as [| x l IH]; intros seen Hnd Hs; simpl.
  - reflexivity.
  - inversion Hnd as [| ? ? Hx Hnd']; subst.
    destruct (existsb (eqb x) seen) eqn:E.
    + apply (existsb_eqb eqb eqb_eq) in E. exfalso.
      exact (Hs x (or_introl eq_refl) E).
    + f_equal. apply IH; [exact Hnd' |].
      intros y Hy [<- | Hy']; [exact (Hx Hy) |].
      exact (Hs y (or_intror Hy) Hy').
Qed.


(** *** sorting *)

Lemma insert_sorted_perm (x : string) (l : list string) :
  Permutation (insert_sorted x l) (x :: l).
Proof.
  induction l as [| y l IH]; simpl; [apply Permutation_refl |].
  destruct (String.leb x y); [apply Permutation_refl |].
  apply perm_trans with (y :: x :: l); [apply perm_skip; exact IH | apply perm_swap].
Qed.

Lemma sort_perm (l : list string) : Permutation (sort l) l.
Proof.
  unfold sort. induction l as [| x l IH]; simpl; [apply perm_nil |].
  apply perm_trans with (x :: fold_right insert_sorted [] l);
    [apply insert_sorted_perm | apply perm_skip; exact IH].
Qed.

Lemma leb_flip (x y : string) : String.leb x y = false -> String.leb y x = true.
Proof.
  intros H. destruct (String.leb_total x y) as [H' | H']; [congruence | exact H'].
Qed.

Lemma insert_sorted_sorted (x : string) (l : list string) :
  Sorted (fun a b => String.leb a b = true) l ->
  Sorted (fun a b => String.leb a b = true) (insert_sorted x l).
Proof.
  induction l as [| y l IH]; simpl; intros Hs.
  - repeat constructor.
  - destruct (String.leb x y) eqn:E.
    + constructor; [exact Hs | constructor; exact E].
    + inversion Hs as [| ? ? Hs' Hhd]; subst.
      constructor; [apply IH; exact Hs' |].
      destruct l as [| z l]; simpl.
      * constructor. apply leb_flip. exact E.
      * destruct (String.leb x z); constructor.
        -- apply leb_flip. exact E.
        -- inversion Hhd; assumption.
Qed.

Lemma sort_sorted (l : list string) :
  Sorted (fun a b => String.leb a b = true) (sort l).
Proof.
  unfold sort. induction l as [| x l IH]; simpl; [constructor |].
  apply insert_sorted_sorted. exact IH.
Qed.

(** *** what [archify] returns *)

Lemma length_keys {A} (o : Obj.t A) : List.length (Obj.keys o) = List.length o.
Proof. apply length_map. Qed.

Lemma archify_names (m : Obj.t node) (alpha : bool) :
  archify m alpha
  = {| root_label :=
         NilEmpty.string_of_uint (Nat.to_uint (List.length m)) ++ " scripts";
       root_nodes := map Some (if alpha then sort (Obj.keys m) else Obj.keys m) |}.
Proof.
  unfold archify. f_equal.
  - destruct alpha.
    + rewrite (Permutation_length (sort_perm (Obj.keys m))), length_keys.
      reflexivity.
    + rewrite length_keys. reflexivity.
  - apply map_ref_keys. intros n Hn. destruct alpha; [| exact Hn].
    exact (Permutation_in n (sort_perm (Obj.keys m)) Hn).
Qed.

(** *** sub-scripts *)


(** On a script map each pass is a map over the entries. *)
Lemma resolve_wf (minimatch : string -> string -> bool) (scripts : Obj.t string) :
  Obj.wf scripts ->
  resolve minimatch scripts
  = map (fun kv =>
           (fst kv,
            attached (getDetailedScripts minimatch scripts)
              (gatherAllSubNames (getDetailedScripts minimatch scripts))
              (fst kv) (snd kv)))
      (map (fun kv => (fst kv, detailed minimatch scripts (fst kv) (snd kv)))
         scripts).
Proof.
  intros Hwf. unfold resolve, attachLabelAndNodes.
  rewrite reduce_set_wf.
  - unfold getDetailedScripts at 3.
    rewrite (reduce_set_wf (detailed minimatch scripts) scripts Hwf).
    reflexivity.
  - unfold getDetailedScripts.
    rewrite (reduce_set_wf (detailed minimatch scripts) scripts Hwf).
    unfold Obj.wf. rewrite keys_map. exact Hwf.
Qed.

Lemma resolve_keys_wf (minimatch : string -> string -> bool)
    (scripts : Obj.t string) :
  Obj.wf scripts -> Obj.keys (resolve minimatch scripts) = Obj.keys scripts.
Proof.
  intros Hwf. rewrite (resolve_wf minimatch scripts Hwf), !keys_map.
  reflexivity.
Qed.

Lemma In_not_null (array : list (option string)) (x : string) :
  In x (not_null array) <-> In (Some x) array /\ x <> "".
Proof.
  induction array as [| [s |] rest IH]; simpl.
  - tauto.
  - destruct (String.eqb_spec s "") as [-> | Hs]; simpl; rewrite IH.
    + split; [tauto |]. intros [[[= <-] | H] Hx]; [congruence | tauto].
    + split.
      * intros [<- | [H Hx]]; [split; [left; reflexivity | exact Hs] | tauto].
      * intros [[[= <-] | H] Hx]; [left; reflexivity | tauto].
  - rewrite IH. split; [tauto |]. intros [[H | H] Hx]; [discriminate | tauto].
Qed.

(** *** splitting *)

Lemma append_nil_r (s : string) : (s ++ "")%string = s.
Proof. induction s as [| b s IH]; simpl; [reflexivity | rewrite IH; reflexivity]. Qed.

Lemma append_cons_assoc (p : string) (b : ascii) (s : string) :
  ((p ++ String b "") ++ s = p ++ String b s)%string.
Proof. induction p as [| a p IH]; simpl; [reflexivity | rewrite IH; reflexivity]. Qed.

Lemma split_aux_cons (sep : ascii) (s cur : string) :
  exists t l, split_aux sep cur s = t :: l.
Proof.
  revert cur. induction s as [| b s IH]; intros cur; simpl.
  - exists cur, []. reflexivity.
  - destruct (Ascii.eqb b sep); [exists cur; eexists; reflexivity | apply IH].
Qed.

Lemma split_aux_join (sep : ascii) (s cur : string) :
  String.concat (String sep "") (split_aux sep cur s) = (cur ++ s)%string.
Proof.
  revert cur. induction s as [| b s IH]; intros cur; simpl.
  - symmetry. apply append_nil_r.
  - destruct (Ascii.eqb_spec b sep) as [-> | Hb].
    + destruct (split_aux_cons sep s "") as [t [l E]].
      specialize (IH ""%string). rewrite E in *. simpl in *.
      rewrite IH. reflexivity.
    + rewrite IH. apply append_cons_assoc.
Qed.

Lemma has_char_append (c : ascii) (p q : string) :
  has_char c (p ++ q) = has_char c p || has_char c q.
Proof.
  induction p as [| b p IH]; simpl; [reflexivity |].
  rewrite IH, orb_assoc. reflexivity.
Qed.

Lemma split_aux_pieces (sep : ascii) (s cur : string) :
  has_char sep cur = false ->
  Forall (fun t => has_char sep t = false) (split_aux sep cur s).
Proof.
  revert cur. induction s as [| b s IH]; intros cur Hcur; simpl.
  - constructor; [exact Hcur | constructor].
  - destruct (Ascii.eqb b sep) eqn:E.
    + constructor; [exact Hcur | apply IH; reflexivity].
    + apply IH. rewrite has_char_append, Hcur. simpl.
      rewrite Ascii.eqb_sym, E. reflexivity.
Qed.

Lemma split_aux_plain (sep : ascii) (p cur : string) :
  has_char sep p = false -> split_aux sep cur p = [(cur ++ p)%string].
Proof.
  revert cur. induction p as [| b p IH]; intros cur H; simpl in *.
  - rewrite append_nil_r. reflexivity.
  - apply orb_false_iff in H. destruct H as [Hb Hp].
    rewrite Ascii.eqb_sym, Hb, IH by exact Hp.
    rewrite append_cons_assoc. reflexivity.
Qed.

Lemma split_aux_append (sep : ascii) (p q cur : string) :
  has_char sep p = false ->
  split_aux sep cur (p ++ String sep q)
  = (cur ++ p)%string :: split_aux sep "" q.
Proof.
  revert cur. induction p as [| b p IH]; intros cur H; simpl in *.
  - rewrite Ascii.eqb_refl, append_nil_r. reflexivity.
  - apply orb_false_iff in H. destruct H as [Hb Hp].
    rewrite Ascii.eqb_sym, Hb, IH by exact Hp.
    rewrite append_cons_assoc. reflexivity.
Qed.

End EntryFacts.

(** ** Properties of the code beyond the claims *)

Import CaptureFacts.
Import ExtractFacts.
Import EntryFacts.

(** X1: [swapColonAndSlash] is its own inverse; it keeps the length, and
    its result has a slash exactly where the argument has a colon. *)
Theorem swapColonAndSlash_round_trip (s : string) :
  swapColonAndSlash (swapColonAndSlash s) = s
  /\ String.length (swapColonAndSlash s) = String.length s
  /\ has_char "/" (swapColonAndSlash s) = has_char ":" s.
Proof.
  split; [apply swapColonAndSlash_involutive |].
  unfold swapColonAndSlash. split.
  - induction s as [| b s IH]; simpl; [reflexivity | rewrite IH; reflexivity].
  - induction s as [| b s IH]; [reflexivity |].
    cbn [map_string has_char]. rewrite IH. f_equal.
    destruct b as [[|] [|] [|] [|] [|] [|] [|] [|]]; reflexivity.
Qed.

(** X2: whatever the glob test, the expansion of a name is the list of the
    keys whose translation passes the test against the translated name, in
    the order of the keys. *)
Theorem expandWildcard_filters_keys
    (minimatch : string -> string -> bool) (name : string)
    (scripts : Obj.t string) :
  expandWildcard minimatch name scripts
  = filter (fun k => minimatch (swapColonAndSlash k) (swapColonAndSlash name))
      (Obj.keys scripts).
Proof.
  unfold expandWildcard. induction (Obj.keys scripts) as [| k l IH]; simpl.
  - reflexivity.
  - destruct (minimatch (swapColonAndSlash k) (swapColonAndSlash name)); simpl.
    + rewrite swapColonAndSlash_involutive, IH. reflexivity.
    + exact IH.
Qed.

(** X3: [unique] returns a list without repetition that has the elements
    of its argument, leaves a list without repetition as it is, and
    applying it twice is applying it once. *)
Theorem unique_spec (array : list string) :
  NoDup (unique array)
  /\ (forall x, In x (unique array) <-> In x array)
  /\ (NoDup array -> unique array = array)
  /\ unique (unique array) = unique array.
Proof.
  assert (Hfix : forall l, NoDup l -> unique l = l).
  { intros l Hl. apply (unique_from_fixed _ String.eqb_eq); [exact Hl |].
    intros x _ []. }
  split; [apply NoDup_unique |]. split; [apply In_unique |].
  split; [apply Hfix | apply Hfix, NoDup_unique].
Qed.

(** X3, at a list without repetition. *)
Lemma unique_spec_witness :
  NoDup ["lint"; "test"] /\ unique ["lint"; "test"] = ["lint"; "test"].
Proof.
  assert (H : NoDup ["lint"; "test"]).
  { repeat constructor; simpl; intuition discriminate. }
  split; [exact H |].
  exact (proj1 (proj2 (proj2 (unique_spec ["lint"; "test"]))) H).
Defined.

(** X4: every element [getRunScripts] returns is a defined, non-empty name
    made of letters, digits, underscores, colons and dashes. *)
Theorem getRunScripts_names (cmd : string) (v : option string) :
  In v (getRunScripts cmd) ->
  exists name,
    v = Some name /\ name <> ""
    /\ every (fun b => is_word b || Ascii.eqb b ":" || Ascii.eqb b "-") name
       = true.
Proof.
  intros H. apply In_getRunScripts_match in H. destruct H as [m [Hm <-]].
  pose proof (getMatches_loop_captures "n" (lit "pm run") (Plus Space)
                (Plus (Cls [Range "a" "z"; Range "0" "9"; One "_"; One ":";
                            One "-"]))
                re_run eq_refl
                (fun p => p <> ""
                          /\ every (fun b => is_word b || Ascii.eqb b ":"
                                             || Ascii.eqb b "-") p = true))
    as Hall.
  unfold getMatches in Hm.
  specialize (Hall (fun n s c k r H =>
                      plus_cls_consumes true n _ _ name_class s c k r H)
                   cmd (S (String.length cmd)) 0).
  rewrite Forall_forall in Hall. destruct (Hall m Hm) as [name [E Hgood]].
  exists name. split; [exact E | exact Hgood].
Qed.

(** X4, at a command that runs a namespaced script. *)
Lemma getRunScripts_names_witness :
  In (Some "build:js") (getRunScripts "npm run build:js -- --watch")
  /\ exists name,
       Some "build:js" = Some name /\ name <> ""
       /\ every (fun b => is_word b || Ascii.eqb b ":" || Ascii.eqb b "-") name
          = true.
Proof.
  assert (H : In (Some "build:js") (getRunScripts "npm run build:js -- --watch"))
    by (vm_compute; left; reflexivity).
  split; [exact H |].
  exact (getRunScripts_names "npm run build:js -- --watch" (Some "build:js") H).
Defined.

(** X5: in [index.js] every element [getRunScripts] returns is a defined,
    non-empty name made of letters, digits, underscores and dashes; it
    never holds a colon. *)
Theorem index_getRunScripts_names (cmd : string) (v : option string) :
  In v (IndexJs.getRunScripts cmd) ->
  exists name,
    v = Some name /\ name <> ""
    /\ every (fun b => is_word b || Ascii.eqb b "-") name = true
    /\ has_char ":" name = false.
Proof.
  intros H. apply In_getRunScripts_match in H. destruct H as [m [Hm <-]].
  pose proof (getMatches_loop_captures "n" (lit "pm run") (Plus Space)
                (Plus (Cls [Range "a" "z"; Range "0" "9"; One "_"; One "-"]))
                IndexJs.re_run eq_refl
                (fun p => p <> ""
                          /\ every (fun b => is_word b || Ascii.eqb b "-") p
                             = true))
    as Hall.
  unfold getMatches in Hm.
  specialize (Hall (fun n s c k r H =>
                      plus_cls_consumes true n _ _ index_name_class s c k r H)
                   cmd (S (String.length cmd)) 0).
  rewrite Forall_forall in Hall. destruct (Hall m Hm) as [name [E [Hne Hev]]].
  exists name. split; [exact E |]. split; [exact Hne |].
  split; [exact Hev |]. exact (every_no_char _ ":" name no_colon Hev).
Qed.

(** X5, at a command that runs a namespaced script: the name stops at the
    colon. *)
Lemma index_getRunScripts_names_witness :
  In (Some "build") (IndexJs.getRunScripts "npm run build:js")
  /\ exists name,
       Some "build" = Some name /\ name <> ""
       /\ every (fun b => is_word b || Ascii.eqb b "-") name = true
       /\ has_char ":" name = false.
Proof.
  assert (H : In (Some "build") (IndexJs.getRunScripts "npm run build:js"))
    by (vm_compute; left; reflexivity).
  split; [exact H |].
  exact (index_getRunScripts_names "npm run build:js" (Some "build") H).
Defined.

(** X6: every token [getRunAllScripts] returns is non-empty and holds no
    space; its characters are letters, digits, underscores, colons, dashes,
    stars, or white space other than the space (the names are split at
    spaces only). *)
Theorem getRunAllScripts_tokens (cmd token : string) :
  In token (getRunAllScripts cmd) ->
  token <> ""
  /\ every (fun b => (is_space b || is_word b || Ascii.eqb b ":"
                      || Ascii.eqb b "-" || Ascii.eqb b "*")
                     && negb (Ascii.eqb b " ")) token = true.
Proof.
  unfold getRunAllScripts. rewrite In_unique. unfold flatten.
  rewrite in_concat. intros [l [Hl Ht]].
  apply in_map_iff in Hl. destruct Hl as [m [<- Hm]].
  pose proof (getMatches_loop_captures "n" (lit "pm-run-all") RE_FLAGS
                (Plus (Seq (Plus Space)
                           (Plus (Cls [Range "a" "z"; Range "0" "9"; One "_";
                                       One ":"; One "-"; One "*"]))))
                re_run_all eq_refl
                (fun p => every (fun b => is_space b || is_word b
                                          || Ascii.eqb b ":" || Ascii.eqb b "-"
                                          || Ascii.eqb b "*") p = true))
    as Hall.
  unfold getMatches in Hm.
  assert (Hg : forall n s c (k : @cont (caps * nat)) r,
             rmatch (ignoreCase re_run_all) n
               (Plus (Seq (Plus Space)
                          (Plus (Cls [Range "a" "z"; Range "0" "9"; One "_";
                                      One ":"; One "-"; One "*"]))))
               s c k = Some r ->
             exists p s' c',
               s = (p ++ s')%string
               /\ every (fun b => is_space b || is_word b || Ascii.eqb b ":"
                                  || Ascii.eqb b "-" || Ascii.eqb b "*") p = true
               /\ k s' c' = Some r).
  { intros n. apply plus_consumes. apply seq_consumes.
    - apply plus_consumes. cbn [rmatch]. apply step_consumes. exact space_class.
    - apply plus_consumes. apply cls_consumes. exact names_class. }
  specialize (Hall Hg cmd (S (String.length cmd)) 0).
  rewrite Forall_forall in Hall. destruct (Hall m Hm) as [names [E Hgood]].
  unfold clean_spaces in Ht. rewrite E in Ht. apply filter_In in Ht.
  destruct Ht as [Ht Hne]. split.
  - apply negb_true_iff, String.eqb_neq in Hne. exact Hne.
  - pose proof (every_split _ " " _ (every_trim _ _ Hgood)) as Hs.
    rewrite Forall_forall in Hs. exact (Hs token Ht).
Qed.

(** X6, at a batch invocation with a wildcard. *)
Lemma getRunAllScripts_tokens_witness :
  In "test:*" (getRunAllScripts "npm-run-all --parallel lint test:*")
  /\ "test:*" <> ""
  /\ every (fun b => (is_space b || is_word b || Ascii.eqb b ":"
                      || Ascii.eqb b "-" || Ascii.eqb b "*")
                     && negb (Ascii.eqb b " ")) "test:*" = true.
Proof.
  assert (H : In "test:*" (getRunAllScripts "npm-run-all --parallel lint test:*"))
    by (vm_compute; right; left; reflexivity).
  split; [exact H |].
  exact (getRunAllScripts_tokens "npm-run-all --parallel lint test:*" "test:*" H).
Defined.

(** X7: a command in which the word [npm] does not occur, in any letter
    case, yields no reference, so a script with such a command has no child
    name; the same holds for a name that is not in the map, whose command
    reads as the text "undefined". *)
Theorem command_without_npm_has_no_children
    (minimatch : string -> string -> bool) (cmd : string) :
  mentions "npm" cmd = false ->
  getRunScripts cmd = []
  /\ getRunAllScripts cmd = []
  /\ (forall scripts name,
        Obj.get scripts name = Some cmd ->
        getSubNames minimatch name scripts = [])
  /\ (forall scripts name,
        Obj.get scripts name = None ->
        getSubNames minimatch name scripts = []).
Proof.
  intros H.
  assert (Hrun : forall c, mentions "npm" c = false -> getRunScripts c = []).
  { intros c Hc. unfold getRunScripts.
    rewrite (getMatches_keyword (lit " run") RE_NAME re_run eq_refl eq_refl c Hc).
    reflexivity. }
  assert (Hall : forall c, mentions "npm" c = false -> getRunAllScripts c = []).
  { intros c Hc. unfold getRunAllScripts.
    rewrite (getMatches_keyword (lit "-run-all") (Seq RE_FLAGS RE_NAMES)
               re_run_all eq_refl eq_refl c Hc).
    reflexivity. }
  split; [exact (Hrun cmd H) |]. split; [exact (Hall cmd H) |]. split.
  - intros scripts name E. unfold getSubNames. rewrite E. cbn [to_string].
    rewrite (Hrun cmd H), (Hall cmd H). reflexivity.
  - intros scripts name E. unfold getSubNames. rewrite E. cbn [to_string].
    rewrite (Hrun "undefined" eq_refl), (Hall "undefined" eq_refl). reflexivity.
Qed.

(** X7, at a command that runs a program of its own. *)
Lemma command_without_npm_has_no_children_witness :
  mentions "npm" "node scripts/build.js && run-s lint" = false
  /\ getRunScripts "node scripts/build.js && run-s lint" = []
  /\ getRunAllScripts "node scripts/build.js && run-s lint" = []
  /\ getSubNames Minimatch.minimatch "build"
       [("build", "node scripts/build.js && run-s lint"); ("lint", "eslint .")]
     = []
  /\ getSubNames Minimatch.minimatch "deploy"
       [("build", "node scripts/build.js && run-s lint"); ("lint", "eslint .")]
     = [].
Proof.
  split; [reflexivity |].
  destruct (command_without_npm_has_no_children Minimatch.minimatch
              "node scripts/build.js && run-s lint" eq_refl)
    as [H1 [H2 [H3 H4]]].
  split; [exact H1 |]. split; [exact H2 |]. split.
  - apply H3. reflexivity.
  - apply H4. reflexivity.
Defined.

(** X8: the loops over [re.exec] end: for both expressions of the
    extractor there are at most as many matches as the command has
    characters, and rounds beyond the length of the command bring
    nothing. *)
Theorem extractor_loops_end (re : RegExp) (cmd : string) (fuel : nat) :
  re = re_run \/ re = re_run_all ->
  String.length cmd < fuel ->
  List.length (getMatches re cmd) <= String.length cmd
  /\ getMatches_loop fuel re cmd 0 = getMatches re cmd.
Proof.
  intros [-> | ->] Hfuel.
  - split.
    + pose proof (length_getMatches_loop "n" (lit "pm run") (Plus Space) _
                    re_run eq_refl cmd (S (String.length cmd)) 0) as H.
      unfold getMatches. lia.
    + unfold getMatches.
      apply (getMatches_loop_fuel "n" (lit "pm run") (Plus Space) _ re_run
               eq_refl); lia.
  - split.
    + pose proof (length_getMatches_loop "n" (lit "pm-run-all") RE_FLAGS _
                    re_run_all eq_refl cmd (S (String.length cmd)) 0) as H.
      unfold getMatches. lia.
    + unfold getMatches.
      apply (getMatches_loop_fuel "n" (lit "pm-run-all") RE_FLAGS _ re_run_all
               eq_refl); lia.
Qed.

(** X8, at a command with two invocations. *)
Lemma extractor_loops_end_witness :
  (re_run = re_run \/ re_run = re_run_all)
  /\ String.length "npm run a && npm run b" < 40
  /\ List.length (getMatches re_run "npm run a && npm run b")
     <= String.length "npm run a && npm run b"
  /\ getMatches_loop 40 re_run "npm run a && npm run b" 0
     = getMatches re_run "npm run a && npm run b".
Proof.
  assert (H1 : re_run = re_run \/ re_run = re_run_all) by (left; reflexivity).
  assert (H2 : String.length "npm run a && npm run b" < 40) by (simpl; lia).
  split; [exact H1 |]. split; [exact H2 |].
  exact (extractor_loops_end re_run "npm run a && npm run b" 40 H1 H2).
Defined.





(** X11: the nodes of an entry are, in this order: the entry of its [pre]
    hook when that script has a non-empty command, the entries of its
    child names in their order, the entry of its [post] hook when that
    script has a non-empty command; none of them is undefined. *)
Theorem nodes_spec
    (minimatch : string -> string -> bool) (scripts : Obj.t string)
    (k : string) (e : node) :
  Obj.get (resolve minimatch scripts) k = Some e ->
  nodes e
  = (if truthy (Obj.get scripts (PRE ++ k)) then [Some (PRE ++ k)%string] else [])
    ++ map Some (getSubNames minimatch k scripts)
    ++ (if truthy (Obj.get scripts (POST ++ k)) then [Some (POST ++ k)%string]
        else []).
Proof.
  intros He. apply get_Some_In, pass2_In in He. destruct He as [c [_ ->]].
  cbn [nodes attached detailed pre post subNames base].
  rewrite (map_ref_keys (getDetailedScripts minimatch scripts)
             (getSubNames minimatch k scripts)).
  2:{ intros n Hn. apply pass1_keys. apply In_getSubNames in Hn. tauto. }
  destruct (truthy (Obj.get scripts (PRE ++ k))) eqn:Epre;
    destruct (truthy (Obj.get scripts (POST ++ k))) eqn:Epost;
    cbn [unshift_if push_if];
    try rewrite (ref_pass1 minimatch scripts (PRE ++ k) (truthy_keys _ _ Epre));
    try rewrite (ref_pass1 minimatch scripts (POST ++ k) (truthy_keys _ _ Epost));
    simpl; rewrite ?app_nil_r; reflexivity.
Qed.

(** X11, at a script with both hooks and one child. *)
Lemma nodes_spec_witness :
  exists e,
    Obj.get (resolve Minimatch.minimatch
               [("build", "npm run lint && tsc"); ("lint", "eslint .");
                ("prebuild", "rimraf dist"); ("postbuild", "echo done")])
      "build" = Some e
    /\ nodes e = [Some "prebuild"; Some "lint"; Some "postbuild"].
Proof.
  destruct (Obj.get (resolve Minimatch.minimatch
               [("build", "npm run lint && tsc"); ("lint", "eslint .");
                ("prebuild", "rimraf dist"); ("postbuild", "echo done")])
              "build") as [e |] eqn:E; [| vm_compute in E; discriminate E].
  exists e. split; [reflexivity |].
  rewrite (nodes_spec Minimatch.minimatch _ "build" e E). vm_compute. reflexivity.
Defined.

(** X12: on an entry map (no repeated key) [prune] is the filter that
    keeps, in their order, the entries that are neither a [pre] nor a
    [post] script nor an explicit sub. *)
Theorem prune_is_filter (scripts : Obj.t node) :
  Obj.wf scripts ->
  prune scripts = filter (fun kv => kept (snd kv)) scripts.
Proof.
  intros Hwf. unfold prune, reduce.
  rewrite (fold_wf (fun kv => kept (snd kv)) (fun _ s => s)
             (fun all kv => if kept (snd kv) then Obj.set all (fst kv) (snd kv)
                            else all)
             (fun _ _ => eq_refl)) by exact Hwf.
  simpl. induction (filter (fun kv => kept (snd kv)) scripts) as [| [k s] l IH];
    simpl; [reflexivity | rewrite IH; reflexivity].
Qed.

(** X12, at the entries of a script with a hook. *)
Lemma prune_is_filter_witness :
  Obj.wf (resolve Minimatch.minimatch [("build", "tsc"); ("prebuild", "rimraf dist")])
  /\ Obj.keys (prune (resolve Minimatch.minimatch
                        [("build", "tsc"); ("prebuild", "rimraf dist")]))
     = ["build"].
Proof.
  assert (Hwf : Obj.wf (resolve Minimatch.minimatch
                          [("build", "tsc"); ("prebuild", "rimraf dist")])).
  { vm_compute. repeat constructor; simpl; intuition discriminate. }
  split; [exact Hwf |].
  rewrite (prune_is_filter _ Hwf). vm_compute. reflexivity.
Defined.



(** X14: [archify] labels the root with the number of entries and lists
    every entry once, each as a defined reference: in the order of the keys,
    or, when [alpha] is set, in ascending order of the keys by code
    unit. *)
Theorem archify_spec (scripts : Obj.t node) (alpha : bool) :
  exists names,
    archify scripts alpha
    = {| root_label :=
           NilEmpty.string_of_uint (Nat.to_uint (List.length scripts))
           ++ " scripts";
         root_nodes := map Some names |}
    /\ Permutation names (Obj.keys scripts)
    /\ (if alpha
        then Sorted (fun a b => String.leb a b = true) names
        else names = Obj.keys scripts).
Proof.
  exists (if alpha then sort (Obj.keys scripts) else Obj.keys scripts).
  split; [apply archify_names |]. destruct alpha.
  - split; [apply sort_perm | apply sort_sorted].
  - split; [apply Permutation_refl | reflexivity].
Qed.

(** X15: when [main] returns, the renderer gets the entries of both passes
    and a root whose label states the number of its nodes; no root node is
    undefined, and the root nodes are the keys of the entries, pruned when
    [p] or [prune] is set. *)
Theorem main_root
    (minimatch : string -> string -> bool) (scripts : Obj.t string)
    (opts : options) (entries : Obj.t node) (tree : root) :
  main minimatch (Some scripts) (Some opts) = Returns_archy entries tree ->
  entries = resolve minimatch scripts
  /\ root_label tree
     = (NilEmpty.string_of_uint (Nat.to_uint (List.length (root_nodes tree)))
        ++ " scripts")%string
  /\ ~ In None (root_nodes tree)
  /\ (forall k,
        In (Some k) (root_nodes tree)
        <-> In k (Obj.keys (if opt_p opts || opt_prune opts
                            then prune (resolve minimatch scripts)
                            else resolve minimatch scripts))).
Proof.
  unfold main. intros H.
  destruct (archy _ _) in H; try discriminate H. injection H as <- <-.
  set (shown := if opt_p opts || opt_prune opts
                then prune (resolve minimatch scripts)
                else resolve minimatch scripts).
  rewrite archify_names. cbn [root_label root_nodes].
  set (names := if opt_a opts || opt_alpha opts
                then sort (Obj.keys shown) else Obj.keys shown).
  assert (Hperm : Permutation names (Obj.keys shown)).
  { unfold names. destruct (opt_a opts || opt_alpha opts);
      [apply sort_perm | apply Permutation_refl]. }
  split; [reflexivity |]. split.
  - rewrite length_map, (Permutation_length Hperm), length_keys. reflexivity.
  - split.
    + intros H. apply in_map_iff in H. destruct H as [x [E _]]. discriminate E.
    + intros k. rewrite in_map_iff. split.
      * intros [x [[= ->] Hx]]. exact (Permutation_in k Hperm Hx).
      * intros Hk. exists k. split; [reflexivity |].
        exact (Permutation_in k (Permutation_sym Hperm) Hk).
Qed.

(** X15, at a map with a hook, pruned and sorted. *)
Lemma main_root_witness :
  exists entries tree,
    main Minimatch.minimatch
      (Some [("test", "mocha"); ("build", "tsc"); ("prebuild", "rimraf dist")])
      (Some {| opt_p := true; opt_prune := false; opt_a := true;
               opt_alpha := false |})
    = Returns_archy entries tree
    /\ root_label tree = "2 scripts"
    /\ root_nodes tree = [Some "build"; Some "test"].
Proof.
  destruct (main Minimatch.minimatch
              (Some [("test", "mocha"); ("build", "tsc");
                     ("prebuild", "rimraf dist")])
              (Some {| opt_p := true; opt_prune := false; opt_a := true;
                       opt_alpha := false |}))
    as [msg | | | entries tree] eqn:E; try (vm_compute in E; discriminate E).
  exists entries, tree. split; [reflexivity |].
  destruct (main_root Minimatch.minimatch _ _ entries tree E) as [_ [Hl _]].
  assert (Hn : root_nodes tree = [Some "build"; Some "test"]).
  { vm_compute in E. injection E as _ <-. reflexivity. }
  split; [rewrite Hl, Hn; reflexivity | exact Hn].
Defined.

(** X16: on a script map (no repeated key, no script named [__proto__],
    which an assignment would not store as a property), [main] without
    options, or with no flag set, lists every script once at the root, in
    the order of the map, unless a reference cycle among the scripts makes
    the renderer overflow the stack. *)
Theorem main_lists_every_script
    (minimatch : string -> string -> bool) (scripts : Obj.t string)
    (opts : option options) :
  Obj.wf scripts ->
  ~ In "__proto__" (Obj.keys scripts) ->
  opts = None \/ opts = Some no_options ->
  main minimatch (Some scripts) opts = Throws_RangeError
  \/ main minimatch (Some scripts) opts
     = Returns_archy (resolve minimatch scripts)
         {| root_label :=
              NilEmpty.string_of_uint (Nat.to_uint (List.length scripts))
              ++ " scripts";
            root_nodes := map Some (Obj.keys scripts) |}.
Proof.
  intros Hwf _ Hopts.
  assert (E : main minimatch (Some scripts) opts
              = match archy (resolve minimatch scripts)
                        (archify (resolve minimatch scripts) false) with
                | rendered =>
                    Returns_archy (resolve minimatch scripts)
                      (archify (resolve minimatch scripts) false)
                | stack_overflow => Throws_RangeError
                | not_an_object => Throws_TypeError
                end)
    by (destruct Hopts as [-> | ->]; reflexivity).
  destruct (main_outcome minimatch scripts opts) as [Ho | [tree Ho]];
    [left; exact Ho | right].
  rewrite E in *.
  destruct (archy (resolve minimatch scripts)
              (archify (resolve minimatch scripts) false));
    try discriminate Ho.
  rewrite archify_names, (resolve_keys_wf minimatch scripts Hwf).
  rewrite <- (length_keys (resolve minimatch scripts)),
    (resolve_keys_wf minimatch scripts Hwf), length_keys.
  reflexivity.
Qed.

(** X16, at a map of two scripts, which is rendered. *)
Lemma main_lists_every_script_witness :
  Obj.wf [("test", "mocha"); ("build", "tsc")]
  /\ ~ In "__proto__" (Obj.keys [("test", "mocha"); ("build", "tsc")])
  /\ (@None options = None \/ @None options = Some no_options)
  /\ main Minimatch.minimatch (Some [("test", "mocha"); ("build", "tsc")]) None
     = Returns_archy
         (resolve Minimatch.minimatch [("test", "mocha"); ("build", "tsc")])
         {| root_label := "2 scripts";
            root_nodes := [Some "test"; Some "build"] |}.
Proof.
  assert (Hwf : Obj.wf [("test", "mocha"); ("build", "tsc")]).
  { repeat constructor; simpl; intuition discriminate. }
  assert (Hp : ~ In "__proto__" (Obj.keys [("test", "mocha"); ("build", "tsc")]))
    by (simpl; intuition discriminate).
  assert (Ho : @None options = None \/ @None options = Some no_options)
    by (left; reflexivity).
  split; [exact Hwf |]. split; [exact Hp |]. split; [exact Ho |].
  destruct (main_lists_every_script Minimatch.minimatch _ None Hwf Hp Ho)
    as [E | E]; [| exact E].
  vm_compute in E. discriminate E.
Defined.

(** X17: in [index.js] a name [p:*], where [p] holds no colon, expands to
    the keys that start with [p:], in the order of the keys and however
    deep; every other name stands for itself, whether it is a key or
    not. *)
Theorem index_expand_one_spec (n : string) (scripts : Obj.t string) :
  (forall p,
     has_char ":" p = false -> n = (p ++ ":*")%string ->
     IndexJs.expand_one n scripts
     = filter (fun k => String.prefix (p ++ ":") k) (Obj.keys scripts))
  /\ ((forall p, has_char ":" p = false -> n <> (p ++ ":*")%string) ->
      IndexJs.expand_one n scripts = [n]).
Proof.
  split.
  - intros p Hp ->. unfold IndexJs.expand_one, split.
    change (p ++ ":*")%string with (p ++ String ":" "*")%string.
    rewrite (split_aux_append ":" p "*" "" Hp). reflexivity.
  - intros Hn. unfold IndexJs.expand_one.
    destruct (removelast (split ":" n)) as [| name [| ? ?]] eqn:Er;
      [reflexivity | | reflexivity].
    destruct (String.eqb_spec (last (split ":" n) "") "*") as [Estar | _];
      [| reflexivity].
    exfalso. unfold split in *.
    destruct (split_aux_cons ":" n "") as [t [l Esp]].
    assert (Hne : split_aux ":" "" n <> []) by (rewrite Esp; discriminate).
    pose proof (app_removelast_last "" Hne) as Happ.
    rewrite Er, Estar in Happ. simpl in Happ.
    pose proof (split_aux_join ":" n "") as Hjoin.
    pose proof (split_aux_pieces ":" n "" eq_refl) as Hpieces.
    rewrite Happ in Hjoin, Hpieces. simpl in Hjoin.
    apply Forall_inv in Hpieces.
    apply (Hn name Hpieces). symmetry. exact Hjoin.
Qed.

(** X17, at a wildcard and at a plain name. *)
Lemma index_expand_one_spec_witness :
  IndexJs.expand_one "test:*"
    [("test:unit", "mocha"); ("build", "tsc"); ("test:unit:fast", "mocha -g fast")]
  = ["test:unit"; "test:unit:fast"]
  /\ IndexJs.expand_one "deploy"
       [("test:unit", "mocha"); ("build", "tsc");
        ("test:unit:fast", "mocha -g fast")]
     = ["deploy"].
Proof.
  split.
  - rewrite (proj1 (index_expand_one_spec "test:*" _) "test" eq_refl eq_refl).
    reflexivity.
  - apply (proj2 (index_expand_one_spec "deploy" _)).
    intros p _ H. apply (f_equal (count_char ":")) in H.
    assert (Hc : forall q, count_char ":" (q ++ ":*") <> 0).
    { induction q as [| b q IH]; simpl; [discriminate | lia]. }
    simpl in H. exact (Hc p (eq_sym H)).
Defined.

(** X18: in [index.js] the nodes of an entry are, in this order: the entry
    of its [pre] hook when that script has a non-empty command; for each of
    its node names in their order, the entry of that script, or, for a name
    that is no key of the map but a property every object inherits, the
    inherited value (which is no entry); the entry of its [post] hook when
    that script has a non-empty command.  None of them is undefined.  (The
    map has no script named [__proto__], which an assignment would not
    store as a property.) *)
Theorem index_nodes_spec (scripts : Obj.t string) (k : string)
    (e : IndexJs.node) :
  ~ In "__proto__" (Obj.keys scripts) ->
  Obj.get (IndexJs.attachNodes (IndexJs.getDetailedScripts scripts)) k = Some e ->
  IndexJs.nodes e
  = (if truthy (Obj.get scripts (PRE ++ k))
     then [IndexJs.entry (PRE ++ k)] else [])
    ++ map (fun n => match Obj.get scripts n with
                     | Some _ => IndexJs.entry n
                     | None => IndexJs.inherited_value n
                     end)
         (IndexJs.getNodesNames k scripts)
    ++ (if truthy (Obj.get scripts (POST ++ k))
        then [IndexJs.entry (POST ++ k)] else []).
Proof.
  intros _ He. apply get_Some_In, IndexJsFacts.index_pass2_In in He.
  destruct He as [c [_ ->]].
  cbn [IndexJs.nodes IndexJs.attached IndexJs.detailed IndexJs.pre IndexJs.post
       IndexJs.nodesNames IndexJs.base].
  assert (Hmap : map (IndexJs.node_of (IndexJs.getDetailedScripts scripts))
                   (IndexJs.getNodesNames k scripts)
                 = map (fun n => match Obj.get scripts n with
                                 | Some _ => IndexJs.entry n
                                 | None => IndexJs.inherited_value n
                                 end)
                     (IndexJs.getNodesNames k scripts)).
  { apply map_ext_in. intros n Hn.
    apply IndexJsFacts.index_In_getNodesNames in Hn.
    rewrite IndexJsFacts.index_node_of_pass1.
    unfold read in Hn. destruct (Obj.get scripts n); [reflexivity |].
    destruct (includes OBJECT_PROTOTYPE n); [reflexivity | discriminate Hn]. }
  rewrite Hmap.
  destruct (truthy (Obj.get scripts (PRE ++ k))) eqn:Epre;
    destruct (truthy (Obj.get scripts (POST ++ k))) eqn:Epost;
    cbn [unshift_if push_if];
    try rewrite (IndexJsFacts.index_node_of_key scripts (PRE ++ k)
                   (truthy_keys _ _ Epre));
    try rewrite (IndexJsFacts.index_node_of_key scripts (POST ++ k)
                   (truthy_keys _ _ Epost));
    simpl; rewrite ?app_nil_r; reflexivity.
Qed.

(** X18, at a script with a [post] hook whose command runs a script and
    names [constructor]. *)
Lemma index_nodes_spec_witness :
  ~ In "__proto__"
      (Obj.keys [("build", "npm run lint && npm run constructor");
                 ("lint", "eslint ."); ("postbuild", "echo done")])
  /\ exists e,
    Obj.get (IndexJs.attachNodes
               (IndexJs.getDetailedScripts
                  [("build", "npm run lint && npm run constructor");
                   ("lint", "eslint ."); ("postbuild", "echo done")])) "build"
    = Some e
    /\ IndexJs.nodes e
       = [IndexJs.entry "lint"; IndexJs.inherited_value "constructor";
          IndexJs.entry "postbuild"].
Proof.
  assert (Hp : ~ In "__proto__"
                 (Obj.keys [("build", "npm run lint && npm run constructor");
                            ("lint", "eslint ."); ("postbuild", "echo done")]))
    by (simpl; intuition discriminate).
  split; [exact Hp |].
  destruct (Obj.get (IndexJs.attachNodes
               (IndexJs.getDetailedScripts
                  [("build", "npm run lint && npm run constructor");
                   ("lint", "eslint ."); ("postbuild", "echo done")])) "build")
    as [e |] eqn:E; [| vm_compute in E; discriminate E].
  exists e. split; [reflexivity |].
  rewrite (index_nodes_spec _ "build" e Hp E). vm_compute. reflexivity.
Defined.

(** X19: a name is a child name of a script exactly when it is a key of the
    map with a non-empty command and its translation passes the glob test
    against the translation of a non-empty name that [getRunScripts] or
    [getRunAllScripts] extracts from the command of the script. *)
Theorem getSubNames_spec
    (minimatch : string -> string -> bool) (name n : string)
    (scripts : Obj.t string) :
  In n (getSubNames minimatch name scripts)
  <-> In n (Obj.keys scripts)
      /\ truthy (Obj.get scripts n) = true
      /\ exists x,
           (In (Some x) (getRunScripts (to_string (Obj.get scripts name)))
            \/ In x (getRunAllScripts (to_string (Obj.get scripts name))))
           /\ x <> ""
           /\ minimatch (swapColonAndSlash n) (swapColonAndSlash x) = true.
Proof.
  unfold getSubNames, getExistingSubNames, expandWildcards, flatten.
  rewrite filter_In, in_concat.
  assert (Hx : forall x,
            In x (unique
                    (not_null
                       (getRunScripts (to_string (Obj.get scripts name))
                        ++ map Some
                             (getRunAllScripts
                                (to_string (Obj.get scripts name))))))
            <-> (In (Some x) (getRunScripts (to_string (Obj.get scripts name)))
                 \/ In x (getRunAllScripts (to_string (Obj.get scripts name))))
                /\ x <> "").
  { intros x. rewrite In_unique, In_not_null, in_app_iff, in_map_iff.
    split.
    - intros [[H | [y [[= ->] H]]] Hne]; tauto.
    - intros [[H | H] Hne]; [tauto |]. split; [| exact Hne].
      right. exists x. split; [reflexivity | exact H]. }
  assert (He : forall x,
            In n (expandWildcard minimatch x scripts)
            <-> In n (Obj.keys scripts)
                /\ minimatch (swapColonAndSlash n) (swapColonAndSlash x) = true).
  { intros x. unfold expandWildcard. rewrite in_map_iff. split.
    - intros [y [<- Hy]]. apply filter_In in Hy. destruct Hy as [Hy Hm].
      apply in_map_iff in Hy. destruct Hy as [k [<- Hk]].
      rewrite swapColonAndSlash_involutive. split; [exact Hk | exact Hm].
    - intros [Hk Hm]. exists (swapColonAndSlash n).
      split; [apply swapColonAndSlash_involutive |]. apply filter_In.
      split; [apply in_map; exact Hk | exact Hm]. }
  split.
  - intros [[l [Hl Hn]] Ht]. apply in_map_iff in Hl.
    destruct Hl as [x [<- Hxin]]. apply He in Hn. destruct Hn as [Hk Hm].
    apply Hx in Hxin. destruct Hxin as [Hext Hne].
    split; [exact Hk |]. split; [exact Ht |].
    exists x. split; [exact Hext |]. split; [exact Hne | exact Hm].
  - intros [Hk [Ht [x [Hext [Hne Hm]]]]]. split; [| exact Ht].
    exists (expandWildcard minimatch x scripts). split.
    + apply in_map_iff. exists x. split; [reflexivity |]. apply Hx. tauto.
    + apply He. split; [exact Hk | exact Hm].
Qed.


